(** * goline: a shallow embedding of goline.go

    The development follows the source file top to bottom: the string
    helpers ([stringSuffixIndexFunc], [stringSuffixFunc]), the output
    helpers ([Say], [SayTrimmed]), the list formatter ([List]) and the
    prompting functions ([Ask], [Confirm]).

    Go strings are byte sequences; they are modelled by [string], whose
    characters are the bytes.  The Go type [int] (runes, lengths, indices)
    is modelled by [Z]; where user data enters the arithmetic the 32-bit
    wrap-around of the gc compilers of the time is written out. *)

From Stdlib Require Import ZArith Lia Bool.
From Stdlib Require Import Strings.Ascii Strings.String.
From stdpp Require Import base list strings.

Local Open Scope Z_scope.
#[local] Arguments String.append : simpl nomatch.

(** ** Bytes and slices of Go strings *)

Definition byte_val (c : ascii) : Z := Z.of_N (N_of_ascii c).

(** [s[i]] for an index the library code has already checked. *)
Definition byte_at (s : string) (i : nat) : Z :=
  match String.get i s with
  | Some c => byte_val c
  | None => 0
  end.

(** [s[i:j]] *)
Definition slice (s : string) (i j : nat) : string :=
  String.substring i (j - i) s.

(** [s[i:]] *)
Definition slice_from (s : string) (i : nat) : string :=
  String.substring i (String.length s - i) s.

(** The one-byte string "\n". *)
Definition newline : string := String (ascii_of_nat 10) EmptyString.

(** A string given by its byte values. *)
Definition bytes (l : list Z) : string :=
  String.string_of_list_ascii (map (fun z => ascii_of_N (Z.to_N z)) l).

(** ** Package utf8 (as shipped with the Go release the file was written for) *)

Module utf8.

Definition RuneError : Z := 0xFFFD.
Definition RuneSelf : Z := 0x80.
Definition UTFMax : nat := 4.

(** A continuation byte: [c < 0x80 || 0xC0 <= c] is the source's test for
    "not a continuation byte". *)
Definition not_cont (c : Z) : bool := (c <? 0x80) || (0xC0 <=? c).

Definition DecodeRuneInString (s : string) : Z * nat :=
  match s with
  | EmptyString => (RuneError, 0%nat)
  | String b0 s1 =>
    let c0 := byte_val b0 in
    if c0 <? 0x80 then (c0, 1%nat)
    else if c0 <? 0xC0 then (RuneError, 1%nat)
    else
      match s1 with
      | EmptyString => (RuneError, 1%nat)
      | String b1 s2 =>
        let c1 := byte_val b1 in
        if not_cont c1 then (RuneError, 1%nat)
        else if c0 <? 0xE0 then
          let r := Z.lor (Z.shiftl (Z.land c0 0x1F) 6) (Z.land c1 0x3F) in
          if r <=? 0x7F then (RuneError, 1%nat) else (r, 2%nat)
        else
          match s2 with
          | EmptyString => (RuneError, 1%nat)
          | String b2 s3 =>
            let c2 := byte_val b2 in
            if not_cont c2 then (RuneError, 1%nat)
            else if c0 <? 0xF0 then
              let r := Z.lor (Z.lor (Z.shiftl (Z.land c0 0x0F) 12)
                                    (Z.shiftl (Z.land c1 0x3F) 6))
                             (Z.land c2 0x3F) in
              if r <=? 0x7FF then (RuneError, 1%nat) else (r, 3%nat)
            else
              match s3 with
              | EmptyString => (RuneError, 1%nat)
              | String b3 _ =>
                let c3 := byte_val b3 in
                if not_cont c3 then (RuneError, 1%nat)
                else if c0 <? 0xF8 then
                  let r := Z.lor (Z.lor (Z.lor (Z.shiftl (Z.land c0 0x07) 18)
                                               (Z.shiftl (Z.land c1 0x3F) 12))
                                        (Z.shiftl (Z.land c2 0x3F) 6))
                                 (Z.land c3 0x3F) in
                  if r <=? 0xFFFF then (RuneError, 1%nat) else (r, 4%nat)
                else (RuneError, 1%nat)
              end
          end
      end
  end.

(** [RuneStart(b)]: [b&0xC0 != 0x80]. *)
Definition RuneStart (b : Z) : bool := negb (Z.land b 0xC0 =? 0x80).

(** The backward scan of [DecodeLastRuneInString]:
    [for start--; start >= lim; start-- { if RuneStart(s[start]) { break } }],
    entered with [start] already decremented. *)
Fixpoint scan_back (fuel : nat) (s : string) (start lim : Z) : Z :=
  match fuel with
  | O => start
  | S fuel' =>
    if start <? lim then start
    else if RuneStart (byte_at s (Z.to_nat start)) then start
    else scan_back fuel' s (start - 1) lim
  end.

Definition DecodeLastRuneInString (s : string) : Z * nat :=
  let end_ := String.length s in
  if (end_ =? 0)%nat then (RuneError, 0%nat)
  else
    let start := (end_ - 1)%nat in
    let r := byte_at s start in
    if r <? RuneSelf then (r, 1%nat)
    else
      let lim := Z.max 0 (Z.of_nat end_ - Z.of_nat UTFMax) in
      let start := scan_back UTFMax s (Z.of_nat start - 1) lim in
      let start := Z.to_nat (Z.max 0 start) in
      let '(r, size) := DecodeRuneInString (slice s start end_) in
      if (start + size =? end_)%nat then (r, size) else (RuneError, 1%nat).

(** [RuneCountInString]: the number of runes a forward decoding yields. *)
Fixpoint count_runes (fuel : nat) (s : string) : nat :=
  match fuel with
  | O => O
  | S fuel' =>
    match s with
    | EmptyString => O
    | _ =>
      let '(_, size) := DecodeRuneInString s in
      S (count_runes fuel' (slice_from s size))
    end
  end.

Definition RuneCountInString (s : string) : nat :=
  count_runes (String.length s) s.

End utf8.

(** ** Package unicode: [IsSpace] *)

Module unicode.

(** The [White_Space] range table, consulted above Latin-1. *)
Definition White_Space (r : Z) : bool :=
  ((0x0009 <=? r) && (r <=? 0x000D)) || (r =? 0x0020) || (r =? 0x0085)
  || (r =? 0x00A0) || (r =? 0x1680) || (r =? 0x180E)
  || ((0x2000 <=? r) && (r <=? 0x200A)) || (r =? 0x2028) || (r =? 0x2029)
  || (r =? 0x202F) || (r =? 0x205F) || (r =? 0x3000).

Definition IsSpace (r : Z) : bool :=
  if r <=? 0xFF then
    (r =? 9) || (r =? 10) || (r =? 11) || (r =? 12) || (r =? 13)
    || (r =? 32) || (r =? 0x85) || (r =? 0xA0)
  else White_Space r.

End unicode.

(** ** Package strings: [LastIndexFunc], [TrimRightFunc], [Join] *)

Module strings.

(** [lastIndexFunc(s, f, truth)].  The callback of
    [stringSuffixIndexFunc] writes to a captured variable, so callbacks
    are state transformers over a state [St] of captured variables. *)
Fixpoint lastIndexFunc_from {St : Type} (fuel : nat) (s : string) (i : nat)
    (f : Z -> St -> bool * St) (truth : bool) (st : St) : Z * St :=
  match fuel with
  | O => (-1, st)
  | S fuel' =>
    if (i =? 0)%nat then (-1, st)
    else
      let '(r, size) := utf8.DecodeLastRuneInString (slice s 0 i) in
      let i := (i - size)%nat in
      let '(b, st) := f r st in
      if Bool.eqb b truth then (Z.of_nat i, st)
      else lastIndexFunc_from fuel' s i f truth st
  end.

Definition lastIndexFunc {St : Type} (s : string)
    (f : Z -> St -> bool * St) (truth : bool) (st : St) : Z * St :=
  lastIndexFunc_from (String.length s) s (String.length s) f truth st.

Definition LastIndexFunc {St : Type} (s : string)
    (f : Z -> St -> bool * St) (st : St) : Z * St :=
  lastIndexFunc s f true st.

(** A callback without captured state. *)
Definition pure_pred (f : Z -> bool) : Z -> unit -> bool * unit :=
  fun r st => (f r, st).

Definition TrimRightFunc (s : string) (f : Z -> bool) : string :=
  let i := fst (lastIndexFunc s (pure_pred f) false tt) in
  let i :=
    if (0 <=? i) && (utf8.RuneSelf <=? byte_at s (Z.to_nat i)) then
      let '(_, wid) := utf8.DecodeRuneInString (slice_from s (Z.to_nat i)) in
      i + Z.of_nat wid
    else i + 1 in
  slice s 0 (Z.to_nat i).

Fixpoint Join (a : list string) (sep : string) : string :=
  match a with
  | [] => ""
  | [x] => x
  | x :: rest => x +:+ sep +:+ Join rest sep
  end.

End strings.

(** ** goline.go: the suffix helpers *)

(** The closure passed to [strings.LastIndexFunc]; its state is the captured
    variable [hasSuffix]. *)
Definition suffix_callback (f : Z -> bool) (c : Z) (hasSuffix : bool)
    : bool * bool :=
  let done := negb (f c) in
  let hasSuffix := if negb hasSuffix then negb done else hasSuffix in
  (done, hasSuffix).

Definition stringSuffixIndexFunc (s : string) (f : Z -> bool) : Z :=
  let hasSuffix := false in
  let '(i, hasSuffix) := strings.LastIndexFunc s (suffix_callback f) hasSuffix in
  let i := i + 1 in
  if negb hasSuffix then -1 else i.

Definition stringSuffixFunc (s : string) (f : Z -> bool) : string :=
  let i := stringSuffixIndexFunc s f in
  if 0 <=? i then slice_from s (Z.to_nat i) else "".

(** ** Errors, panics and the effect monad *)

(** Modelled from the spec: errors.go is absent.  An [os.Error] is known by
    the text its [String] method returns; sections 7 and 9 split the errors
    of the package into fatal ones and ones the prompt loop retries on, the
    "unrecoverable" versus "recoverable" panic distinction. *)
Record Error := mkError { Error_String : string; IsRecoverable : bool }.

Module os.
(** [os.NewError(text)]; [fmt.Errorf] yields the same kind of value. *)
Definition NewError (text : string) : Error := mkError text false.
(** [os.EOF], what a read at the end of the input returns. *)
Definition EOF : Error := NewError "EOF".
End os.

(** Run-time panics carry a [runtime.Error], which is an [os.Error]. *)
Definition runtimeError (text : string) : Error :=
  os.NewError ("runtime error: " +:+ text).

Inductive PanicValue :=
| PanicError (e : Error)     (* a value that implements os.Error *)
| PanicString (s : string).  (* any other value *)

(** What one [r.ReadLine()] call on standard input returns. *)
Inductive ReadResult :=
| Line (s : string) (isPrefix : bool)
| ReadError (e : Error).

(** The wide values a question holds and a destination receives. *)
Inductive Value :=
| VUint (n : Z)
| VInt (z : Z)
| VFloat (m e : Z)  (* m * 10^e; binary rounding is outside the embedding *)
| VString (s : string).

(** The part of the world the package acts on.  [mem] is the variable the
    destination pointer of [Ask] points to; [confirm_err] is the local
    variable [err] of [Confirm], which its callback captures; [notified]
    records the calls of the caller's own failure callbacks. *)
Record World := mkWorld {
  stdout : list string;
  stdin : list ReadResult;
  mem : Value;
  confirm_err : option Error;
  notified : list (string * Error)
}.

Inductive Res (A : Type) :=
| Done (a : A)
| Panicked (v : PanicValue)
| NoFuel.
Arguments Done {A} a.
Arguments Panicked {A} v.
Arguments NoFuel {A}.

Definition M (A : Type) : Type := World -> Res A * World.

Definition ret {A} (a : A) : M A := fun w => (Done a, w).

Definition bind {A B} (m : M A) (k : A -> M B) : M B :=
  fun w =>
    match m w with
    | (Done a, w') => k a w'
    | (Panicked v, w') => (Panicked v, w')
    | (NoFuel, w') => (NoFuel, w')
    end.

Definition panic {A} (v : PanicValue) : M A := fun w => (Panicked v, w).

Definition out_of_fuel {A} : M A := fun w => (NoFuel, w).

Notation "'let*' x ':=' c1 'in' c2" := (bind c1 (fun x => c2))
  (at level 10, x pattern, c1 at level 100, c2 at level 200).
Notation "c1 '>>' c2" := (bind c1 (fun _ => c2))
  (at level 100, c2 at level 200, right associativity).

(** [fmt.Print(msg)] with one string operand.  The count and the error
    that [fmt.Print] returns are outside the embedding: standard output is
    the list of the texts written to it, and no caller in goline.go reads
    what [Say] returns. *)
Definition Print (msg : string) : M unit :=
  fun w => (Done tt,
            mkWorld (stdout w ++ [msg]) (stdin w) (mem w) (confirm_err w)
                    (notified w)).

Definition Println (msg : string) : M unit := Print (msg +:+ newline).

(** ** goline.go: [Say] and [SayTrimmed] *)

Definition Say (msg : string) : M unit :=
  let '(c, _) := utf8.DecodeLastRuneInString msg in
  if unicode.IsSpace c then Print msg else Println msg.

Definition SayTrimmed (msg : string) : M unit :=
  Say (strings.TrimRightFunc msg unicode.IsSpace).

(** [for i := range strs { SayTrimmed(strs[i]) }] *)
Fixpoint say_rows (strs : list string) : M unit :=
  match strs with
  | [] => ret tt
  | s :: rest => SayTrimmed s >> say_rows rest
  end.

(** ** goline.go: [List] *)

(** Values of type [interface{}], as far as the type switches of [List]
    tell them apart. *)
Inductive Any :=
| ANil
| AInt (z : Z)
| AString (s : string)
| AStringer (str : string)  (* a value whose String method returns str *)
| AOther.

(** The argument [items]: a slice with its elements, or a value of another
    kind that is not the nil interface (for nil, [reflect.ValueOf] yields
    the zero Value, on which the call [ival.Type()] panics before the kind
    is looked at; the embedding leaves that argument out). *)
Inductive ItemsArg :=
| SliceOf (l : list Any)
| NotSlice.

(** [type ListMode uint] and its constants. *)
Definition ListMode := N.
Definition ColumnsAcross : ListMode := 0%N.
Definition ColumnsDown : ListMode := 1%N.
Definition Inline : ListMode := 2%N.
Definition Rows : ListMode := 3%N.

(** Arithmetic on [int]: results wrap around at 32 bits. *)
Definition int_wrap (z : Z) : Z := (z + 2 ^ 31) mod 2 ^ 32 - 2 ^ 31.

Definition len (s : string) : Z := Z.of_nat (String.length s).

(** The first loop of [List]: the text of every item, or a panic at the
    first item that is neither a Stringer nor a string. *)
Fixpoint item_strings (l : list Any) : M (list string) :=
  match l with
  | [] => ret []
  | v :: rest =>
    let* s :=
      match v with
      | AStringer str => ret str
      | AString s => ret s
      | _ => panic (PanicError
               (os.NewError "List items contain non-string, non-Stringer item"))
      end in
    let* strs := item_strings rest in
    ret (s :: strs)
  end.

(** [strs[i]] *)
Definition index_strs (strs : list string) (i : Z) : M string :=
  if (i <? 0) || (Z.of_nat (length strs) <=? i)
  then panic (PanicError (runtimeError "index out of range"))
  else
    match strs !! Z.to_nat i with
    | Some s => ret s
    | None => panic (PanicError (runtimeError "index out of range"))
    end.

(** [strs[i:j]] *)
Definition slice_strs (strs : list string) (i j : Z) : M (list string) :=
  if (i <? 0) || (j <? i) || (Z.of_nat (length strs) <? j)
  then panic (PanicError (runtimeError "slice bounds out of range"))
  else ret (take (Z.to_nat (j - i)) (drop (Z.to_nat i) strs)).

(** The loop computing [width]. *)
Definition max_width (strs : list string) : Z :=
  fold_left (fun width s => let n := len s in if n >? width then n else width)
            strs 0.

Fixpoint spaces (n : nat) : string :=
  match n with
  | O => ""
  | S n' => " " +:+ spaces n'
  end.

(** [fmt.Sprintf("%-<width>s", s)]: left-justified, padded with blanks up to
    [width] runes. *)
Definition Sprintf_pad (width : Z) (s : string) : string :=
  s +:+ spaces (Z.to_nat width - utf8.RuneCountInString s).

(** The [ColumnsAcross] loop, from row start [i]. *)
Fixpoint across_loop (fuel : nat) (strs : list string) (n ncols i : Z)
    : M unit :=
  if i <? n then
    match fuel with
    | O => out_of_fuel
    | S fuel' =>
      let end_ := int_wrap (i + ncols) in
      let end_ := if end_ >? n then n else end_ in
      let* row := slice_strs strs i end_ in
      SayTrimmed (strings.Join row " ") >>
      across_loop fuel' strs n ncols (int_wrap (i + ncols))
    end
  else ret tt.

(** The inner [ColumnsDown] loop: the items of row [i], from column [j]. *)
Fixpoint down_row (fuel : nat) (strs : list string) (n nrows ncols i j : Z)
    (row : list string) : M (list string) :=
  if j <? ncols then
    match fuel with
    | O => out_of_fuel
    | S fuel' =>
      let index := int_wrap (int_wrap (j * nrows) + i) in
      if index >=? n then ret row
      else
        let* s := index_strs strs index in
        down_row fuel' strs n nrows ncols i (int_wrap (j + 1)) (row ++ [s])
    end
  else ret row.

(** The outer [ColumnsDown] loop, from row [i]. *)
Fixpoint down_loop (fuel : nat) (strs : list string) (n nrows ncols i : Z)
    : M unit :=
  if i <? nrows then
    match fuel with
    | O => out_of_fuel
    | S fuel' =>
      let* row := down_row (S (length strs)) strs n nrows ncols i 0 [] in
      SayTrimmed (strings.Join row " ") >>
      down_loop fuel' strs n nrows ncols (int_wrap (i + 1))
    end
  else ret tt.

(** [ncols := (wrap + 1) / (width + 1)]; Go's division truncates. *)
Definition num_cols (wrap width : Z) : Z :=
  Z.quot (int_wrap (wrap + 1)) (int_wrap (width + 1)).

(** The [ColumnsAcross] and [ColumnsDown] cases. *)
Definition List_columns (strs : list string) (mode : ListMode) (option : Any)
    : M unit :=
  let* wrap :=
    match option with
    | ANil => ret 80
    | AInt z => ret z
    | _ => panic (PanicError (os.NewError "List option of unacceptable type"))
    end in
  let width := max_width strs in
  let n := Z.of_nat (length strs) in
  let ncols := num_cols wrap width in
  if ncols <=? 1 then say_rows strs
  else
    let nrows := Z.quot (int_wrap (int_wrap (n + ncols) - 1)) ncols in
    let strs := map (Sprintf_pad width) strs in
    match mode with
    | 0%N => across_loop (length strs) strs n ncols 0
    | 1%N => down_loop (Z.to_nat nrows) strs n nrows ncols 0
    | _ => ret tt
    end.

(** The [Inline] case. *)
Definition List_inline (strs : list string) (option : Any) : M unit :=
  let n := Z.of_nat (length strs) in
  if n =? 1 then
    let* s := index_strs strs 0 in
    SayTrimmed s
  else
    let* join :=
      match option with
      | ANil => ret " or "
      | AString s => ret s
      | _ => panic (PanicError (os.NewError "List option of unacceptable type"))
      end in
    if n =? 2 then
      let* a := index_strs strs (n - 2) in
      let* b := index_strs strs (n - 2) in
      Say (strings.Join [a; join; b; newline] "")
    else
      let* last := index_strs strs (n - 1) in
      let strs := <[Z.to_nat (n - 1) := join +:+ last]> strs in
      SayTrimmed (strings.Join strs ", ").

Definition List (items : ItemsArg) (mode : ListMode) (option : Any) : M unit :=
  match items with
  | NotSlice => panic (PanicError (os.NewError "List given non-Slice types."))
  | SliceOf l =>
    let* strs := item_strings l in
    match mode with
    | 0%N | 1%N => List_columns strs mode option
    | 2%N => List_inline strs option
    | 3%N => say_rows strs
    | _ => panic (PanicError (os.NewError "Unknown mode"))
    end
  end.

(** The first loop of [List] without the effects: the texts of the items,
    if every item is a Stringer or a string. *)
Definition item_text (v : Any) : option string :=
  match v with
  | AStringer str => Some str
  | AString s => Some s
  | _ => None
  end.

Fixpoint texts (l : list Any) : option (list string) :=
  match l with
  | [] => Some []
  | v :: rest =>
    match item_text v, texts rest with
    | Some s, Some strs => Some (s :: strs)
    | _, _ => None
    end
  end.

(** The option of the column modes read as a wrap width, and the option of
    [Inline] read as a join string, when their types are acceptable. *)
Definition wrap_option (opt : Any) : option Z :=
  match opt with
  | ANil => Some 80
  | AInt z => Some z
  | _ => None
  end.

Definition join_option (opt : Any) : option string :=
  match opt with
  | ANil => Some " or "
  | AString s => Some s
  | _ => None
  end.

(** The world after some more writes to standard output. *)
Definition printed (w : World) (out : list string) : World :=
  mkWorld (stdout w ++ out) (stdin w) (mem w) (confirm_err w) (notified w).

(** A world with nothing printed yet and no input pending. *)
Definition world0 : World := mkWorld [] [] (VString "") None [].

(** What a computation prints when started in [world0], and how it ends. *)
Definition run {A} (m : M A) : Res A * list string :=
  let '(r, w) := m world0 in (r, stdout w).

(** ** What goline.go uses of question.go and errors.go *)

(** Modelled from the spec: errors.go is absent.  [panicUnrecoverable]
    panics with the error unless the error is one the prompt loop may
    retry on, in which case it returns. *)
Definition panicUnrecoverable (err : Error) : M unit :=
  if IsRecoverable err then ret tt else panic (PanicError err).

(** The answer types [Uint], [Int], [Float] and [String] of question.go. *)
Inductive Type_ := Uint | Int | Float | String_.

(** The keys of [q.Responses]; goline.go uses [AskOnError] only. *)
Inductive Response := AskOnError | OtherResponse (n : nat).

(** A value of type [func(os.Error)] stored in [q.Panic]: a callback of the
    caller, known by a name, or the closure [Confirm] puts around one,
    [func(e os.Error) { err = e; f(e) }]. *)
Inductive PanicFunc :=
| CallerFunc (name : string)
| ConfirmFunc (f : PanicFunc).

(** Modelled from the spec: the declaration of [Question] is absent.  The
    fields are those of section 3; goline.go itself reads and writes
    [Question], [Default], [Panic], [Responses] and [val]. *)
Record Question := mkQuestion {
  q_typ : Type_;
  q_Question : string;
  q_Default : option string;
  q_FirstAnswer : option string;
  q_set : list string;
  q_Responses : Response -> string;
  q_Panic : option PanicFunc;
  q_val : option Value
}.

Definition set_Question (msg : string) (q : Question) : Question :=
  mkQuestion (q_typ q) msg (q_Default q) (q_FirstAnswer q) (q_set q)
             (q_Responses q) (q_Panic q) (q_val q).

Definition set_Default (d : option string) (q : Question) : Question :=
  mkQuestion (q_typ q) (q_Question q) d (q_FirstAnswer q) (q_set q)
             (q_Responses q) (q_Panic q) (q_val q).

Definition set_Panic (f : option PanicFunc) (q : Question) : Question :=
  mkQuestion (q_typ q) (q_Question q) (q_Default q) (q_FirstAnswer q) (q_set q)
             (q_Responses q) f (q_val q).

Definition set_val (v : option Value) (q : Question) : Question :=
  mkQuestion (q_typ q) (q_Question q) (q_Default q) (q_FirstAnswer q) (q_set q)
             (q_Responses q) (q_Panic q) v.

(** The pointer types the type switch of [Ask] knows, and any other. *)
Inductive PtrTarget :=
| T_uint | T_uint8 | T_uint16 | T_uint32 | T_uint64
| T_int | T_int8 | T_int16 | T_int32 | T_int64
| T_float32 | T_float64
| T_string
| T_other.

(** The argument [dest] by the kind of its dynamic type; [OtherDest] carries
    what [k.String()] returns. *)
Inductive Dest :=
| PtrTo (t : PtrTarget)
| SliceDest
| OtherDest (kind : string).

(** The functions and methods of question.go that goline.go calls.  They
    are not in the repository files at hand, so [Ask] and [Confirm] take
    them as an interface.  After construction a question changes only
    through the configuration callback (section 3 of the spec), so the
    methods report the new content of [q.val] and the error they return;
    [setDest] reports the new content of the destination variable.
    [zeroType] is the zero value of the answer type. *)
Class QuestionMethods := {
  zeroType : Type_;
  newQuestion : Type_ -> Question;
  In : list string -> Question -> Question;
  tryFirstAnswer : Question -> option Value * option Error;
  parse : Question -> string -> option Value * option Error;
  setDest : Question -> PtrTarget -> Value -> Value * option Error;
  defaultString : Question -> string -> string
}.

(** ** World accessors *)

Definition set_mem (v : Value) : M unit :=
  fun w => (Done tt,
            mkWorld (stdout w) (stdin w) v (confirm_err w) (notified w)).

Definition get_mem : M Value := fun w => (Done (mem w), w).

Definition set_confirm_err (e : option Error) : M unit :=
  fun w => (Done tt, mkWorld (stdout w) (stdin w) (mem w) e (notified w)).

Definition get_confirm_err : M (option Error) :=
  fun w => (Done (confirm_err w), w).

Definition notify (name : string) (e : Error) : M unit :=
  fun w => (Done tt,
            mkWorld (stdout w) (stdin w) (mem w) (confirm_err w)
                    (notified w ++ [(name, e)])).

(** [r.ReadLine()]: the next piece of input; at the end of the input the
    reader returns [os.EOF]. *)
Definition ReadLine : M (string * bool * option Error) :=
  fun w =>
    match stdin w with
    | [] => (Done ("", false, Some os.EOF), w)
    | Line s isPrefix :: rest =>
      (Done (s, isPrefix, None),
       mkWorld (stdout w) rest (mem w) (confirm_err w) (notified w))
    | ReadError e :: rest =>
      (Done ("", false, Some e),
       mkWorld (stdout w) rest (mem w) (confirm_err w) (notified w))
    end.

(** Calling a value of type [func(os.Error)]. *)
Fixpoint call_Panic (f : PanicFunc) (e : Error) : M unit :=
  match f with
  | CallerFunc name => notify name e
  | ConfirmFunc f' => set_confirm_err (Some e) >> call_Panic f' e
  end.

(** ** goline.go: [Ask] and [Confirm] *)

Section Prompting.

Context `{QM : QuestionMethods}.

(** The type switch on [dest]; the default case builds an error value and
    drops it, so [t] keeps its zero value. *)
Definition dest_Type (t : PtrTarget) : Type_ :=
  match t with
  | T_uint | T_uint8 | T_uint16 | T_uint32 | T_uint64 => Uint
  | T_int | T_int8 | T_int16 | T_int32 | T_int64 => Int
  | T_float32 | T_float64 => Float
  | T_string => String_
  | T_other => zeroType
  end.

(** The read loop
    [for cont := true; cont; { s, isPrefix, err := r.ReadLine() ... }].
    [None] stands for the [return] after [panicUnrecoverable(err)]. *)
Fixpoint read_response (fuel : nat) (resp : string) : M (option string) :=
  match fuel with
  | O => out_of_fuel
  | S fuel' =>
    let* (s, isPrefix, err) := ReadLine in
    match err with
    | Some e => panicUnrecoverable e >> ret None
    | None =>
      let resp := resp +:+ s in
      if isPrefix then read_response fuel' resp else ret (Some resp)
    end
  end.

(** Every round of a loop of [Ask] takes a piece of the input or ends the
    loop, so the pieces left bound the rounds. *)
Definition rounds (w : World) : nat := S (length (stdin w)).

Definition read_line : M (option string) :=
  fun w => read_response (rounds w) "" w.

(** [contFunc]: prints the error; the caller of [contFunc] continues with
    the prompt [q.Responses[AskOnError]]. *)
Definition contFunc (err : Error) : M unit :=
  Say ("Error: " +:+ Error_String err +:+ newline).

(** The prompt loop [for { ... }] of [Ask]. *)
Fixpoint ask_loop (fuel : nat) (q : Question) (dest : PtrTarget)
    (prompt : string) : M unit :=
  match fuel with
  | O => out_of_fuel
  | S fuel' =>
    let tail := stringSuffixFunc prompt unicode.IsSpace in
    Say (prompt +:+ defaultString q tail) >>
    let* resp := read_line in
    match resp with
    | None => ret tt
    | Some resp =>
      let '(val, err) := parse q resp in
      let q := set_val val q in
      match err with
      | Some err =>
        panicUnrecoverable err >>
        contFunc err >>
        ask_loop fuel' q dest (q_Responses q AskOnError)
      | None =>
        let* old := get_mem in
        let '(new, err) := setDest q dest old in
        set_mem new >>
        match err with
        | Some err =>
          panicUnrecoverable err >>
          contFunc err >>
          ask_loop fuel' q dest (q_Responses q AskOnError)
        | None => ret tt
        end
      end
    end
  end.

(** The body of [Ask] from [q.tryFirstAnswer()] on. *)
Definition ask_answer (q : Question) (dest : PtrTarget) (msg : string)
    : M unit :=
  let '(val, err) := tryFirstAnswer q in
  let q := set_val val q in
  match err, q_val q with
  | None, Some _ =>
    let* old := get_mem in
    let '(new, err) := setDest q dest old in
    set_mem new >>
    match err with
    | Some err => panicUnrecoverable err
    | None => ret tt
    end
  | _, _ => fun w => ask_loop (rounds w) q dest msg w
  end.

(** The deferred function of [Ask], run on the outcome of the body.  [q]
    is the variable [q] of [Ask], [None] while it is still nil.  The
    result is the value of the named result [e], which no statement of
    [Ask] assigns. *)
Definition ask_deferred (q : option Question) (body : M unit)
    : M (option Error) :=
  fun w =>
    match body w with
    | (Done _, w') => (Done None, w')
    | (Panicked (PanicError err), w') =>
      match q with
      | None =>
        (Panicked (PanicError (runtimeError
           "invalid memory address or nil pointer dereference")), w')
      | Some q =>
        match q_Panic q with
        | Some f => (call_Panic f err >> ret None) w'
        | None => (Done None, w')
        end
      end
    | (Panicked v, w') => (Panicked v, w')
    | (NoFuel, w') => (NoFuel, w')
    end.

(** The question as [Ask] sets it up before [q.tryFirstAnswer()]. *)
Definition ask_question (t : PtrTarget) (msg : string)
    (config : option (Question -> Question)) : Question :=
  let q := newQuestion (dest_Type t) in
  let q := set_Question msg q in
  match config with
  | Some c => c q
  | None => q
  end.

Definition Ask (dest : Dest) (msg : string)
    (config : option (Question -> Question)) : M (option Error) :=
  match dest with
  | OtherDest k =>
    ask_deferred None
      (panicUnrecoverable
         (os.NewError ("Ask(...) requires a Ptr type, not " +:+ k)))
  | SliceDest =>
    ask_deferred None
      (panicUnrecoverable
         (os.NewError "Ask(...) can not currently assign to slices."))
  | PtrTo t =>
    let q := ask_question t msg config in
    ask_deferred (Some q) (ask_answer q t msg)
  end.

(** The configuration callback [Confirm] hands to [Ask]. *)
Definition confirm_config (def : string)
    (config : option (Question -> Question)) (q : Question) : Question :=
  let q := set_Default (Some def) q in
  let q := In ["yes"; "y"; "no"; "n"] q in
  let q := match config with Some c => c q | None => q end in
  match q_Panic q with
  | Some f => set_Panic (Some (ConfirmFunc f)) q
  | None => q
  end.

(** The string variable [okstr] as read back from the destination. *)
Definition string_of (v : Value) : string :=
  match v with
  | VString s => s
  | _ => ""
  end.

Definition Confirm (question : string) (yes : bool)
    (config : option (Question -> Question)) : M bool :=
  let def := if yes then "yes" else "no" in
  set_mem (VString "") >>
  set_confirm_err None >>
  Ask (PtrTo T_string) question (Some (confirm_config def config)) >>
  let* err := get_confirm_err in
  match err with
  | Some _ => ret false
  | None =>
    let* okstr := get_mem in
    match string_of okstr with
    | EmptyString => panic (PanicError (runtimeError "index out of range"))
    | String c _ => ret (Ascii.eqb c "y")
    end
  end.

End Prompting.

(** ** question.go after the spec *)

Module SpecQuestion.

(** Modelled from the spec: the coercion of section 4.1 is absent from the
    files at hand.  Numbers are base 10, ASCII digits with a leading sign
    and, for [Float], a single decimal point; [Text] is the token. *)
Definition is_digit (c : ascii) : bool :=
  (48 <=? byte_val c) && (byte_val c <=? 57).

Fixpoint digits (s : string) (acc : Z) : option Z :=
  match s with
  | EmptyString => Some acc
  | String c rest =>
    if is_digit c then digits rest (10 * acc + (byte_val c - 48)) else None
  end.

Definition unsigned (s : string) : option Z :=
  match s with
  | EmptyString => None
  | _ => digits s 0
  end.

Definition signed (s : string) : option Z :=
  match s with
  | String "+" rest => unsigned rest
  | String "-" rest => Z.opp <$> unsigned rest
  | _ => unsigned s
  end.

(** Splits at the first decimal point. *)
Fixpoint split_point (s : string) : string * option string :=
  match s with
  | EmptyString => (EmptyString, None)
  | String "." rest => (EmptyString, Some rest)
  | String c rest =>
    let '(a, b) := split_point rest in (String c a, b)
  end.

Definition decimal (s : string) : option (Z * Z) :=
  match split_point s with
  | (whole, None) => (fun m => (m, 0)) <$> signed whole
  | (whole, Some frac) =>
    match signed (whole +:+ frac), digits frac 0 with
    | Some m, Some _ => Some (m, - Z.of_nat (String.length frac))
    | _, _ => None
    end
  end.

(** Modelled from the spec: the error values of question.go and errors.go
    are absent.  Section 7: a token that does not parse and a token that
    validation rejects are errors the prompt loop retries on. *)
Definition CoercionError : Error := mkError "answer is not of the asked type" true.
Definition ConstraintError : Error := mkError "answer is not in the accepted set" true.

(** Modelled from the spec: section 4.1 makes a value that does not fit the
    width of the destination a local error that ends the call of [Ask], as
    does the comment above the call of [setDest] in goline.go ("failure
    should break the loop"); sections 4.4 and 7 speak of a retry instead.
    The flag follows section 4.1 and the comment; what goline.go does with
    either kind of error is proved below for every error, whatever its
    flag. *)
Definition NarrowError : Error := mkError "value does not fit the destination" false.

(** Modelled from the spec: a destination of a kind other than that of the
    answer is a configuration error of section 7. *)
Definition KindError : Error := mkError "destination does not match the answer type" false.

Definition coerce (token : string) (tag : Type_) : option Value :=
  match tag with
  | Uint =>
    match unsigned token with
    | Some n => if n <? 2 ^ 64 then Some (VUint n) else None
    | None => None
    end
  | Int =>
    match signed token with
    | Some z =>
      if (- 2 ^ 63 <=? z) && (z <? 2 ^ 63) then Some (VInt z) else None
    | None => None
    end
  | Float => (fun '(m, e) => VFloat m e) <$> decimal token
  | String_ => Some (VString token)
  end.

(** Section 4.2: the empty set accepts everything; otherwise the raw
    token has to be a member. *)
Definition validate (q : Question) (token : string) : bool :=
  match q_set q with
  | [] => true
  | set => existsb (String.eqb token) set
  end.

Definition answer (q : Question) (token : string)
    : option Value * option Error :=
  match coerce token (q_typ q) with
  | None => (q_val q, Some CoercionError)
  | Some v =>
    if validate q token then (Some v, None)
    else (q_val q, Some ConstraintError)
  end.

Definition spec_parse (q : Question) (raw : string)
    : option Value * option Error :=
  match raw, q_Default q with
  | EmptyString, Some d => answer q d
  | _, _ => answer q raw
  end.

Definition spec_tryFirstAnswer (q : Question)
    : option Value * option Error :=
  match q_FirstAnswer q with
  | None => (q_val q, None)
  | Some token => answer q token
  end.

Definition spec_defaultString (q : Question) (tail : string) : string :=
  match q_Default q with
  | None => ""
  | Some d => "|" +:+ d +:+ "|" +:+ tail
  end.

Definition fits_unsigned (bits n : Z) : bool := (0 <=? n) && (n <? 2 ^ bits).
Definition fits_signed (bits z : Z) : bool :=
  (- 2 ^ (bits - 1) <=? z) && (z <? 2 ^ (bits - 1)).

(** Section 4.1, narrowing: the wide value has to fit the width of the
    destination, and its kind has to be the destination's. *)
Definition narrow (v : Value) (t : PtrTarget) : option Error :=
  let check (ok : bool) := if ok then None else Some NarrowError in
  match v, t with
  | VUint n, T_uint8 => check (fits_unsigned 8 n)
  | VUint n, T_uint16 => check (fits_unsigned 16 n)
  | VUint n, (T_uint | T_uint32) => check (fits_unsigned 32 n)
  | VUint n, T_uint64 => check (fits_unsigned 64 n)
  | VInt z, T_int8 => check (fits_signed 8 z)
  | VInt z, T_int16 => check (fits_signed 16 z)
  | VInt z, (T_int | T_int32) => check (fits_signed 32 z)
  | VInt z, T_int64 => check (fits_signed 64 z)
  | VFloat _ _, (T_float32 | T_float64) => None
  | VString _, T_string => None
  | _, _ => Some KindError
  end.

Definition spec_setDest (q : Question) (t : PtrTarget) (old : Value)
    : Value * option Error :=
  match q_val q with
  | None => (old, Some KindError)
  | Some v =>
    match narrow v t with
    | None => (v, None)
    | Some err => (old, Some err)
    end
  end.

Definition spec_newQuestion (t : Type_) : Question :=
  mkQuestion t "" None None [] (fun _ => "") None None.

Definition spec_In (set : list string) (q : Question) : Question :=
  mkQuestion (q_typ q) (q_Question q) (q_Default q) (q_FirstAnswer q) set
             (q_Responses q) (q_Panic q) (q_val q).

#[export] Instance methods : QuestionMethods := {|
  zeroType := Uint;
  newQuestion := spec_newQuestion;
  In := spec_In;
  tryFirstAnswer := spec_tryFirstAnswer;
  parse := spec_parse;
  setDest := spec_setDest;
  defaultString := spec_defaultString
|}.

End SpecQuestion.

(** A world with the given input pending. *)
Definition world_in (input : list ReadResult) : World :=
  mkWorld [] input (VString "") None [].

(** ** Notions the statements below use *)

(** [f] holds of every rune of [s], decoding [s] from the front. *)
Fixpoint all_runes_from (fuel : nat) (f : Z -> bool) (s : string) : bool :=
  match fuel with
  | O => true
  | S fuel' =>
    match s with
    | EmptyString => true
    | _ =>
      let '(r, size) := utf8.DecodeRuneInString s in
      f r && all_runes_from fuel' f (slice_from s size)
    end
  end.

Definition all_runes (f : Z -> bool) (s : string) : bool :=
  all_runes_from (String.length s) f s.

(** The byte at [i], if any, is no continuation byte. *)
Definition boundary (s : string) (i : nat) : Prop :=
  match slice_from s i with
  | EmptyString => True
  | String c _ => utf8.not_cont (byte_val c) = true
  end.

(** The end of the result of [TrimRightFunc], from the index [k] that
    [lastIndexFunc] returned. *)
Definition trim_end (s : string) (k : Z) : Z :=
  if (0 <=? k) && (utf8.RuneSelf <=? byte_at s (Z.to_nat k)) then
    let '(_, wid) := utf8.DecodeRuneInString (slice_from s (Z.to_nat k)) in
    k + Z.of_nat wid
  else k + 1.

(** What [Say] writes for [msg]. *)
Definition say_text (msg : string) : string :=
  if unicode.IsSpace (fst (utf8.DecodeLastRuneInString msg)) then msg
  else msg +:+ newline.

(** The line [SayTrimmed] prints for [msg]. *)
Definition trimmed_line (msg : string) : string :=
  strings.TrimRightFunc msg unicode.IsSpace +:+ newline.

(** The panic of the first loop of [List]. *)
Definition items_error : PanicValue :=
  PanicError (os.NewError "List items contain non-string, non-Stringer item").

(** A computation that takes nothing from standard input and does not
    depend on fuel. *)
Definition steady {A} (m : M A) : Prop :=
  forall w, stdin (snd (m w)) = stdin w /\ fst (m w) <> NoFuel.

(** A computation that leaves the error variable of [Confirm] alone. *)
Definition quiet {A} (m : M A) : Prop :=
  forall w, confirm_err (snd (m w)) = confirm_err w.

(** The error branch of the prompt loop, up to the next round. *)
Definition retry (err : Error) (next : M unit) : M unit :=
  panicUnrecoverable err >> contFunc err >> next.

(** The world with the destination variable set to [v]. *)
Definition with_mem (v : Value) (w : World) : World :=
  mkWorld (stdout w) (stdin w) v (confirm_err w) (notified w).

(** The question [Confirm] asks. *)
Definition confirm_question `{QM : QuestionMethods} (question : string) (yes : bool)
    (config : option (Question -> Question)) : Question :=
  ask_question T_string question
    (Some (confirm_config (if yes then "yes" else "no") config)).

(** The world in which [Confirm] calls [Ask]: [okstr] and [err] have their
    zero values. *)
Definition confirm_start (w : World) : World :=
  mkWorld (stdout w) (stdin w) (VString "") None (notified w).


(** ** Notions of the further properties *)

(** The last rune of [s], as [Say] reads it. *)
Definition last_rune (s : string) : Z := fst (utf8.DecodeLastRuneInString s).

(** All bytes of [s] are ASCII bytes for which [f] holds. *)
Definition all_bytes (f : Z -> bool) (s : string) : Prop :=
  forall j, (j < String.length s)%nat ->
            byte_at s j < 128 /\ f (byte_at s j) = true.

(** The world with the pending input replaced by [rest]. *)
Definition with_stdin (rest : list ReadResult) (w : World) : World :=
  mkWorld (stdout w) rest (mem w) (confirm_err w) (notified w).

(** The pieces of a line that [ReadLine] hands out one by one, the last one
    without the prefix mark. *)
Definition line_pieces (pieces : list string) (last : string)
    : list ReadResult :=
  map (fun s => Line s true) pieces ++ [Line last false].

(** [q.FirstAnswer = a] *)
Definition set_FirstAnswer (a : option string) (q : Question) : Question :=
  mkQuestion (q_typ q) (q_Question q) (q_Default q) a (q_set q)
             (q_Responses q) (q_Panic q) (q_val q).

(** The prompt [Ask] writes in a round. *)
Definition prompt_text `{QM : QuestionMethods} (q : Question)
    (prompt : string) : string :=
  say_text (prompt +:+ defaultString q
              (stringSuffixFunc prompt unicode.IsSpace)).

(** [l] cut into consecutive pieces of [k] elements, the last one perhaps
    shorter. *)
Fixpoint chunks {A} (fuel k : nat) (l : list A) : list (list A) :=
  match fuel with
  | O => []
  | S fuel' =>
    match l with
    | [] => []
    | _ => take k l :: chunks fuel' k (drop k l)
    end
  end.

(** The line [List] prints for a row of a column mode. *)
Definition row_line (row : list string) : string :=
  trimmed_line (strings.Join row " ").

(** Row [i] of [ColumnsDown]: the items at [i], [i + nrows], [i + 2 nrows],
    ... that exist, at most [ncols] of them. *)
Definition down_items (strs : list string) (nrows ncols i : nat)
    : list string :=
  omap (fun j => strs !! (j * nrows + i)%nat) (seq 0 ncols).

(** A text of ASCII bytes only. *)
Definition ascii_text (s : string) : Prop := all_bytes (fun _ => true) s.

(** * Properties *)

(** ** Substrings *)

Lemma substring_prefix_length (s : string) (j : nat) :
  (j <= String.length s)%nat -> String.length (substring 0 j s) = j.
Proof.
  revert j. induction s as [|c s IH]; intros [|j] H; simpl in *; try lia.
  now rewrite IH by lia.
Qed.

Lemma substring_prefix_get (s : string) (i j : nat) :
  (i < j)%nat -> String.get i (substring 0 j s) = String.get i s.
Proof.
  revert i j. induction s as [|c s IH]; intros i [|j] H; simpl; try lia;
    try reflexivity.
  destruct i as [|i]; [reflexivity | apply IH; lia].
Qed.

Lemma substring_of_prefix (s : string) (a m j : nat) :
  (a + m <= j)%nat -> substring a m (substring 0 j s) = substring a m s.
Proof.
  revert a m j. induction s as [|c s IH]; intros a m [|j] H; simpl.
  - reflexivity.
  - reflexivity.
  - assert (a = 0 /\ m = 0)%nat as [-> ->] by lia. reflexivity.
  - destruct a as [|a].
    + destruct m as [|m]; [reflexivity|]. f_equal. apply IH. lia.
    + apply IH. lia.
Qed.

Lemma substring_split (s : string) (a m k : nat) :
  substring a (m + k) s = substring a m s +:+ substring (a + m) k s.
Proof.
  revert a m. induction s as [|c s IH]; intros a m.
  - destruct a, m, k; reflexivity.
  - destruct a as [|a].
    + destruct m as [|m]; simpl.
      * reflexivity.
      * f_equal. apply (IH 0%nat m).
    + simpl. apply IH.
Qed.

Lemma substring_cons_get (s : string) (i m : nat) (c : ascii) :
  String.get i s = Some c ->
  substring i (S m) s = String c (substring (S i) m s).
Proof.
  revert i. induction s as [|b s IH]; intros i H; simpl in *; [discriminate|].
  destruct i as [|i].
  - inversion H; subst. reflexivity.
  - apply (IH i H).
Qed.

Lemma get_lt (s : string) (i : nat) :
  (i < String.length s)%nat -> exists c, String.get i s = Some c.
Proof.
  revert i. induction s as [|b s IH]; intros i H; simpl in *; [lia|].
  destruct i as [|i]; [eauto | apply IH; lia].
Qed.

Lemma substring_empty (s : string) (a : nat) : substring a 0 s = "".
Proof. revert a. induction s as [|c s IH]; intros [|a]; simpl; auto. Qed.

Lemma substring_beyond (s : string) (m : nat) :
  substring (String.length s) m s = "".
Proof. induction s as [|c s IH]; destruct m; simpl; auto. Qed.

Lemma append_assoc (s t u : string) : (s +:+ t) +:+ u = s +:+ (t +:+ u).
Proof. induction s as [|c s IH]; simpl; [reflexivity | now rewrite IH]. Qed.

Lemma length_append (s t : string) :
  String.length (s +:+ t) = (String.length s + String.length t)%nat.
Proof. induction s as [|c s IH]; simpl; [reflexivity | now rewrite IH]. Qed.

Lemma get_append_right (s t : string) (i : nat) :
  String.get (String.length s + i) (s +:+ t) = String.get i t.
Proof. induction s as [|c s IH]; simpl; [reflexivity | exact IH]. Qed.

Lemma byte_at_last (s : string) (c : ascii) :
  byte_at (s +:+ String c EmptyString) (String.length s) = byte_val c.
Proof.
  unfold byte_at.
  replace (String.length s) with (String.length s + 0)%nat at 1 by lia.
  now rewrite get_append_right.
Qed.

(** The last rune of a string that ends in an ASCII byte is that byte. *)
Lemma DecodeLastRuneInString_ascii (s : string) (c : ascii) :
  byte_val c < utf8.RuneSelf ->
  utf8.DecodeLastRuneInString (s +:+ String c EmptyString) = (byte_val c, 1%nat).
Proof.
  intros Hc. unfold utf8.DecodeLastRuneInString.
  rewrite length_append. simpl String.length.
  replace (String.length s + 1 =? 0)%nat with false
    by (symmetry; apply Nat.eqb_neq; lia).
  replace (String.length s + 1 - 1)%nat with (String.length s) by lia.
  rewrite byte_at_last.
  now apply Z.ltb_lt in Hc as ->.
Qed.

Lemma Say_newline (s : string) : Say (s +:+ newline) = Print (s +:+ newline).
Proof.
  unfold Say, newline.
  rewrite DecodeLastRuneInString_ascii by (vm_compute; reflexivity).
  reflexivity.
Qed.

(** ** The rune decoder *)

Ltac case_if :=
  match goal with
  | |- context [if ?c then _ else _] => destruct c eqn:?
  | H : context [if ?c then _ else _] |- _ => destruct c eqn:?
  end.

Ltac decode_cases :=
  repeat first
    [ progress (intros; subst)
    | match goal with
      | H : (_, _) = (_, _) |- _ => inversion H; clear H
      end
    | case_if ];
  try reflexivity; try lia; try congruence.

(** A decoded rune of two or more bytes depends on those bytes only. *)
Lemma DecodeRuneInString_prefix (u v : string) (r : Z) (k : nat) :
  utf8.DecodeRuneInString u = (r, k) -> (2 <= k)%nat ->
  utf8.DecodeRuneInString (u +:+ v) = (r, k).
Proof.
  destruct u as [|b0 [|b1 [|b2 [|b3 u]]]]; unfold utf8.DecodeRuneInString;
    simpl String.append; decode_cases.
Qed.

Lemma DecodeRuneInString_size (b : ascii) (u : string) :
  (1 <= snd (utf8.DecodeRuneInString (String b u)))%nat.
Proof.
  unfold utf8.DecodeRuneInString.
  destruct u as [|b1 [|b2 [|b3 u]]]; decode_cases; simpl; lia.
Qed.

(** The first byte of a rune that decodes to something else than
    [RuneError], or to more than one byte, is no continuation byte. *)
Lemma DecodeRuneInString_first (b : ascii) (u : string) (r : Z) (k : nat) :
  utf8.DecodeRuneInString (String b u) = (r, k) ->
  r <> utf8.RuneError \/ (2 <= k)%nat ->
  utf8.not_cont (byte_val b) = true.
Proof.
  unfold utf8.DecodeRuneInString, utf8.not_cont.
  intros H Hr.
  destruct (byte_val b <? 128) eqn:H0; [reflexivity|].
  destruct (byte_val b <? 192) eqn:H1.
  - inversion H; subst. destruct Hr; [congruence | lia].
  - apply Z.ltb_ge in H1. apply Z.leb_le in H1. rewrite H1. apply orb_true_r.
Qed.

Lemma DecodeRuneInString_ascii (b : ascii) (u : string) :
  byte_val b < 128 -> utf8.DecodeRuneInString (String b u) = (byte_val b, 1%nat).
Proof.
  intros H. unfold utf8.DecodeRuneInString.
  now apply Z.ltb_lt in H as ->.
Qed.

(** A byte from [0x80] on that is not followed by a continuation byte
    decodes as one byte. *)
Lemma DecodeRuneInString_lone (b : ascii) (u : string) :
  128 <= byte_val b ->
  match u with
  | EmptyString => True
  | String c _ => utf8.not_cont (byte_val c) = true
  end ->
  snd (utf8.DecodeRuneInString (String b u)) = 1%nat.
Proof.
  intros Hb Hu. unfold utf8.DecodeRuneInString.
  destruct (byte_val b <? 128) eqn:H0; [apply Z.ltb_lt in H0; lia|].
  destruct (byte_val b <? 192); [reflexivity|].
  destruct u as [|c u]; [reflexivity|]. now rewrite Hu.
Qed.

(** ** Slices *)

Lemma slice_prefix_length (s : string) (i : nat) :
  (i <= String.length s)%nat -> String.length (slice s 0 i) = i.
Proof.
  intros H. unfold slice. rewrite Nat.sub_0_r.
  now apply substring_prefix_length.
Qed.

Lemma byte_at_slice_prefix (s : string) (i j : nat) :
  (j < i)%nat -> byte_at (slice s 0 i) j = byte_at s j.
Proof.
  intros H. unfold byte_at, slice. rewrite Nat.sub_0_r.
  now rewrite substring_prefix_get.
Qed.

Lemma slice_slice_prefix (s : string) (a i : nat) :
  (a <= i)%nat -> slice (slice s 0 i) a i = slice s a i.
Proof.
  intros H. unfold slice. rewrite Nat.sub_0_r.
  apply substring_of_prefix. lia.
Qed.

Lemma slice_from_split (s : string) (a i : nat) :
  (a <= i)%nat -> (i <= String.length s)%nat ->
  slice_from s a = slice s a i +:+ slice_from s i.
Proof.
  intros Ha Hi. unfold slice_from, slice.
  replace (String.length s - a)%nat
    with ((i - a) + (String.length s - i))%nat by lia.
  rewrite substring_split. do 2 f_equal. lia.
Qed.

Lemma slice_cons (s : string) (a i : nat) :
  (a < i)%nat -> (i <= String.length s)%nat ->
  exists c, String.get a s = Some c /\
            slice s a i = String c (slice s (S a) i).
Proof.
  intros Ha Hi. destruct (get_lt s a) as [c Hc]; [lia|].
  exists c. split; [exact Hc|]. unfold slice.
  replace (i - a)%nat with (S (i - S a)) by lia.
  now apply substring_cons_get.
Qed.

Lemma slice_from_cons (s : string) (a : nat) :
  (a < String.length s)%nat ->
  exists c, String.get a s = Some c /\
            slice_from s a = String c (slice_from s (S a)).
Proof.
  intros Ha. destruct (get_lt s a) as [c Hc]; [lia|].
  exists c. split; [exact Hc|]. unfold slice_from.
  replace (String.length s - a)%nat with (S (String.length s - S a)) by lia.
  now apply substring_cons_get.
Qed.

Lemma slice_from_length (s : string) : slice_from s (String.length s) = "".
Proof. unfold slice_from. apply substring_beyond. Qed.

Lemma slice_empty (s : string) (a : nat) : slice s a a = "".
Proof. unfold slice. rewrite Nat.sub_diag. apply substring_empty. Qed.

(** ** The last rune *)

Lemma scan_back_le (fuel : nat) (s : string) (start lim : Z) :
  utf8.scan_back fuel s start lim <= start.
Proof.
  revert start. induction fuel as [|fuel IH]; intros start; simpl; [lia|].
  destruct (start <? lim); [lia|].
  destruct (utf8.RuneStart _); [lia|].
  specialize (IH (start - 1)). lia.
Qed.

(** How [DecodeLastRuneInString] comes by its result on a string that is
    not empty: an ASCII byte, a rune decoded from some [start] up to the
    end, or [RuneError] for the last byte. *)
Lemma DecodeLastRuneInString_cases (u : string) (r : Z) (size : nat) :
  String.length u <> 0%nat ->
  utf8.DecodeLastRuneInString u = (r, size) ->
  let n := String.length u in
  (byte_at u (n - 1) < 128 /\ r = byte_at u (n - 1) /\ size = 1%nat)
  \/ (128 <= byte_at u (n - 1) /\
      exists start, (start < n)%nat /\ (start + size = n)%nat /\
                    utf8.DecodeRuneInString (slice u start n) = (r, size))
  \/ (128 <= byte_at u (n - 1) /\ r = utf8.RuneError /\ size = 1%nat).
Proof.
  intros Hn H n. unfold utf8.DecodeLastRuneInString in H. fold n in H.
  apply Nat.eqb_neq in Hn as Hn'. fold n in Hn'. rewrite Hn' in H.
  unfold utf8.RuneSelf in H.
  destruct (byte_at u (n - 1) <? 128) eqn:Hb.
  - left. apply Z.ltb_lt in Hb. inversion H; subst. auto.
  - apply Z.ltb_ge in Hb. right.
    set (lim := Z.max 0 (Z.of_nat n - Z.of_nat utf8.UTFMax)) in H.
    pose proof (scan_back_le utf8.UTFMax u (Z.of_nat (n - 1) - 1) lim) as Hle.
    set (start := Z.to_nat (Z.max 0 (utf8.scan_back utf8.UTFMax u
                                       (Z.of_nat (n - 1) - 1) lim))) in H.
    assert (Hstart : (start < n)%nat) by (fold n in Hn; unfold start; lia).
    destruct (utf8.DecodeRuneInString (slice u start n)) as [r' size'] eqn:Hd.
    destruct (start + size' =? n)%nat eqn:He.
    + left. inversion H; subst. apply Nat.eqb_eq in He.
      split; [lia|]. exists start. auto.
    + right. inversion H; subst. auto.
Qed.

(** ** [TrimRightFunc] *)

Lemma byte_at_get (s : string) (i : nat) (c : ascii) :
  String.get i s = Some c -> byte_at s i = byte_val c.
Proof. unfold byte_at. now intros ->. Qed.

Lemma boundary_lone (s : string) (i : nat) :
  (0 < i)%nat -> (i <= String.length s)%nat -> boundary s i ->
  128 <= byte_at s (i - 1) ->
  snd (utf8.DecodeRuneInString (slice_from s (i - 1))) = 1%nat.
Proof.
  intros H0 Hi Hb Hc.
  destruct (slice_from_cons s (i - 1)) as (c & Hget & ->); [lia|].
  replace (S (i - 1)) with i by lia.
  apply DecodeRuneInString_lone.
  - now rewrite <- (byte_at_get _ _ _ Hget).
  - exact Hb.
Qed.

(** Where the scan stops at a rune, the trimmed string ends with it. *)
Lemma trim_end_found (s : string) (i : nat) (r : Z) (size : nat) :
  (0 < i)%nat -> (i <= String.length s)%nat -> boundary s i ->
  utf8.DecodeLastRuneInString (slice s 0 i) = (r, size) ->
  (1 <= size <= i)%nat /\ trim_end s (Z.of_nat (i - size)) = Z.of_nat i.
Proof.
  intros H0 Hi Hb Hd.
  pose proof (slice_prefix_length s i Hi) as Hlen.
  apply DecodeLastRuneInString_cases in Hd; [|lia].
  rewrite Hlen in Hd. rewrite byte_at_slice_prefix in Hd by lia.
  unfold trim_end, utf8.RuneSelf. rewrite Nat2Z.id.
  replace (0 <=? Z.of_nat (i - size)) with true by (symmetry; apply Z.leb_le; lia).
  rewrite andb_true_l.
  destruct Hd as [(Hc & _ & ->) | [(Hc & start & Hs & Hsum & Hdec) | (Hc & _ & ->)]].
  - split; [lia|].
    replace (128 <=? byte_at s (i - 1)) with false by (symmetry; apply Z.leb_gt; lia).
    lia.
  - rewrite slice_slice_prefix in Hdec by lia.
    destruct (slice_cons s start i) as (c & Hget & Hcons); [lia | lia |].
    assert (Hsz : (1 <= size)%nat).
    { pose proof (DecodeRuneInString_size c (slice s (S start) i)) as Hp.
      rewrite <- Hcons, Hdec in Hp. exact Hp. }
    split; [lia|].
    replace (i - size)%nat with start by lia.
    destruct (Nat.eq_dec size 1%nat) as [-> | Hne].
    + replace start with (i - 1)%nat in * by lia.
      replace (128 <=? byte_at s (i - 1)) with true by (symmetry; apply Z.leb_le; lia).
      pose proof (boundary_lone s i H0 Hi Hb Hc) as Hw.
      destruct (utf8.DecodeRuneInString (slice_from s (i - 1))) as [r' wid].
      simpl in Hw. subst wid. lia.
    + assert (Hlead : utf8.not_cont (byte_val c) = true).
      { rewrite Hcons in Hdec.
        apply (DecodeRuneInString_first _ _ _ _ Hdec). right. lia. }
      assert (Hc0 : 128 <= byte_at s start).
      { rewrite (byte_at_get _ _ _ Hget).
        destruct (Z.lt_ge_cases (byte_val c) 128) as [Hlt | Hge]; [|exact Hge].
        rewrite Hcons, (DecodeRuneInString_ascii _ _ Hlt) in Hdec.
        inversion Hdec. lia. }
      replace (128 <=? byte_at s start) with true by (symmetry; apply Z.leb_le; lia).
      rewrite (slice_from_split s start i) by lia.
      rewrite (DecodeRuneInString_prefix _ _ _ _ Hdec) by lia. lia.
  - split; [lia|].
    replace (128 <=? byte_at s (i - 1)) with true by (symmetry; apply Z.leb_le; lia).
    pose proof (boundary_lone s i H0 Hi Hb Hc) as Hw.
    destruct (utf8.DecodeRuneInString (slice_from s (i - 1))) as [r' wid].
    simpl in Hw. subst wid. lia.
Qed.

(** Where the scan goes on past a rune that is not [RuneError], the rune
    starts at a boundary. *)
Lemma boundary_step (s : string) (i : nat) (r : Z) (size : nat) :
  (0 < i)%nat -> (i <= String.length s)%nat ->
  utf8.DecodeLastRuneInString (slice s 0 i) = (r, size) ->
  r <> utf8.RuneError ->
  boundary s (i - size).
Proof.
  intros H0 Hi Hd Hr.
  pose proof (slice_prefix_length s i Hi) as Hlen.
  apply DecodeLastRuneInString_cases in Hd; [|lia].
  rewrite Hlen in Hd. rewrite byte_at_slice_prefix in Hd by lia.
  unfold boundary.
  destruct Hd as [(Hc & _ & ->) | [(Hc & start & Hs & Hsum & Hdec) | (_ & ? & _)]];
    [| |contradiction].
  - destruct (slice_from_cons s (i - 1)) as (c & Hget & ->); [lia|].
    rewrite (byte_at_get _ _ _ Hget) in Hc. unfold utf8.not_cont.
    replace (byte_val c <? 128) with true by (symmetry; apply Z.ltb_lt; lia).
    reflexivity.
  - rewrite slice_slice_prefix in Hdec by lia.
    destruct (slice_cons s start i) as (c & Hget & Hcons); [lia | lia |].
    replace (i - size)%nat with start by lia.
    destruct (slice_from_cons s start) as (c' & Hget' & ->); [lia|].
    assert (c' = c) as -> by congruence.
    rewrite Hcons in Hdec.
    apply (DecodeRuneInString_first _ _ _ _ Hdec). now left.
Qed.

Lemma lastIndexFunc_from_trim (f : Z -> bool) (s : string) :
  f utf8.RuneError = false ->
  forall (fuel i : nat),
    (i <= String.length s)%nat -> boundary s i ->
    let k := fst (strings.lastIndexFunc_from fuel s i (strings.pure_pred f)
                                             false tt) in
    k = -1 \/
    exists (j : nat) (r : Z) (size : nat),
      (0 < j <= String.length s)%nat /\
      utf8.DecodeLastRuneInString (slice s 0 j) = (r, size) /\
      f r = false /\ trim_end s k = Z.of_nat j.
Proof.
  intros Hf. induction fuel as [|fuel IH]; intros i Hi Hb; simpl; [now left|].
  destruct (i =? 0)%nat eqn:H0; [now left|].
  apply Nat.eqb_neq in H0.
  destruct (utf8.DecodeLastRuneInString (slice s 0 i)) as [r size] eqn:Hd.
  unfold strings.pure_pred at 1.
  destruct (trim_end_found s i r size) as [Hsize Hend]; auto; [lia|].
  destruct (f r) eqn:Hfr; simpl.
  - apply IH; [lia|].
    apply (boundary_step s i r size); auto; [lia|]. congruence.
  - right. exists i, r, size. repeat split; auto; lia.
Qed.

Lemma boundary_length (s : string) : boundary s (String.length s).
Proof. unfold boundary. now rewrite slice_from_length. Qed.

(** What [TrimRightFunc] returns is empty or ends with a rune that [f]
    rejects. *)
Theorem TrimRightFunc_last (s : string) (f : Z -> bool) :
  f utf8.RuneError = false ->
  f (fst (utf8.DecodeLastRuneInString (strings.TrimRightFunc s f))) = false.
Proof.
  intros Hf. unfold strings.TrimRightFunc, strings.lastIndexFunc.
  fold (trim_end s (fst (strings.lastIndexFunc_from (String.length s) s
          (String.length s) (strings.pure_pred f) false tt))).
  destruct (lastIndexFunc_from_trim f s Hf (String.length s) (String.length s))
    as [-> | (j & r & size & Hj & Hd & Hfr & ->)];
    [lia | apply boundary_length | |].
  - unfold trim_end. simpl. rewrite slice_empty. exact Hf.
  - rewrite Nat2Z.id, Hd. exact Hfr.
Qed.

Theorem SayTrimmed_Println (msg : string) :
  SayTrimmed msg = Println (strings.TrimRightFunc msg unicode.IsSpace).
Proof.
  unfold SayTrimmed, Say.
  pose proof (TrimRightFunc_last msg unicode.IsSpace eq_refl) as H.
  destruct (utf8.DecodeLastRuneInString _) as [c n]. simpl in H.
  now rewrite H.
Qed.

(** ** The monad *)

Lemma bind_Done {A B} (m : M A) (k : A -> M B) (w w' : World) (a : A) :
  m w = (Done a, w') -> bind m k w = k a w'.
Proof. unfold bind. now intros ->. Qed.

Lemma bind_Panicked {A B} (m : M A) (k : A -> M B) (w w' : World)
    (v : PanicValue) :
  m w = (Panicked v, w') -> bind m k w = (Panicked v, w').
Proof. unfold bind. now intros ->. Qed.

Lemma printed_nil (w : World) : printed w [] = w.
Proof. destruct w. unfold printed. simpl. now rewrite app_nil_r. Qed.

Lemma printed_app (w : World) (l1 l2 : list string) :
  printed (printed w l1) l2 = printed w (l1 ++ l2).
Proof. unfold printed. simpl. now rewrite app_assoc. Qed.

(** ** [Say] and [SayTrimmed] *)

Lemma SayTrimmed_line (msg : string) (w : World) :
  SayTrimmed msg w = (Done tt, printed w [trimmed_line msg]).
Proof. rewrite SayTrimmed_Println. reflexivity. Qed.

Lemma say_rows_lines (strs : list string) (w : World) :
  say_rows strs w = (Done tt, printed w (map trimmed_line strs)).
Proof.
  revert w. induction strs as [|s strs IH]; intros w; simpl.
  - now rewrite printed_nil.
  - rewrite (bind_Done _ _ _ _ _ (SayTrimmed_line s w)).
    rewrite IH, printed_app. reflexivity.
Qed.


(** ** The suffix helpers *)

Lemma DecodeLastRuneInString_slice_ascii (s : string) (i : nat) :
  (0 < i <= String.length s)%nat -> byte_at s (i - 1) < 128 ->
  utf8.DecodeLastRuneInString (slice s 0 i) = (byte_at s (i - 1), 1%nat).
Proof.
  intros Hi Hb. unfold utf8.DecodeLastRuneInString.
  rewrite slice_prefix_length by lia.
  replace (i =? 0)%nat with false by (symmetry; apply Nat.eqb_neq; lia).
  rewrite byte_at_slice_prefix by lia.
  unfold utf8.RuneSelf. now apply Z.ltb_lt in Hb as ->.
Qed.

(** The scan passes over ASCII bytes that satisfy [f], and remembers that it
    saw one. *)
Lemma lastIndexFunc_from_pass (s : string) (f : Z -> bool) (n : nat) :
  forall (i fuel : nat) (hasSuffix : bool),
    (i + n <= String.length s)%nat ->
    (forall j, (i <= j < i + n)%nat ->
               byte_at s j < 128 /\ f (byte_at s j) = true) ->
    strings.lastIndexFunc_from (n + fuel) s (i + n) (suffix_callback f) true
                               hasSuffix
    = strings.lastIndexFunc_from fuel s i (suffix_callback f) true
        (if (n =? 0)%nat then hasSuffix else true).
Proof.
  induction n as [|n IH]; intros i fuel hasSuffix Hlen Hall.
  - simpl. now rewrite Nat.add_0_r.
  - change (S n + fuel)%nat with (S (n + fuel)).
    cbn [strings.lastIndexFunc_from].
    replace (i + S n =? 0)%nat with false by (symmetry; apply Nat.eqb_neq; lia).
    destruct (Hall (i + n)%nat) as [Hb Hf]; [lia|].
    rewrite DecodeLastRuneInString_slice_ascii;
      replace (i + S n - 1)%nat with (i + n)%nat by lia; [|lia|exact Hb].
    unfold suffix_callback at 1. rewrite Hf. cbn [negb Bool.eqb].
    rewrite IH; [|lia|intros j Hj; apply Hall; lia].
    destruct hasSuffix, n; reflexivity.
Qed.

(** X2: for a string that ends in ASCII bytes satisfying [f], preceded by
    nothing or by an ASCII byte that fails [f], the index is the start of
    those bytes, and the suffix is those bytes. *)
Theorem stringSuffixIndexFunc_ascii (s : string) (f : Z -> bool) (i : nat) :
  (i < String.length s)%nat ->
  (forall j, (i <= j < String.length s)%nat ->
             byte_at s j < 128 /\ f (byte_at s j) = true) ->
  i = 0%nat \/ (byte_at s (i - 1) < 128 /\ f (byte_at s (i - 1)) = false) ->
  stringSuffixIndexFunc s f = Z.of_nat i
  /\ stringSuffixFunc s f = slice_from s i.
Proof.
  intros Hi Hall Hpre.
  assert (H : stringSuffixIndexFunc s f = Z.of_nat i).
  { unfold stringSuffixIndexFunc, strings.LastIndexFunc, strings.lastIndexFunc.
    pose proof (lastIndexFunc_from_pass s f (String.length s - i) i i false)
      as Hpass.
    replace (String.length s - i + i)%nat with (String.length s) in Hpass
      by lia.
    replace (i + (String.length s - i))%nat with (String.length s) in Hpass
      by lia.
    rewrite Hpass; [|lia|intros j Hj; apply Hall; lia].
    replace (String.length s - i =? 0)%nat with false
      by (symmetry; apply Nat.eqb_neq; lia).
    destruct Hpre as [-> | [Hb Hf]].
    - reflexivity.
    - destruct i as [|i]; [reflexivity|].
      cbn [strings.lastIndexFunc_from Nat.eqb].
      rewrite DecodeLastRuneInString_slice_ascii by (auto; lia).
      unfold suffix_callback at 1. rewrite Hf. cbn [negb Bool.eqb].
      lia. }
  split; [exact H|].
  unfold stringSuffixFunc. rewrite H.
  replace (0 <=? Z.of_nat i) with true by (symmetry; apply Z.leb_le; lia).
  now rewrite Nat2Z.id.
Qed.

(** The empty string and a string whose last byte is an ASCII byte failing
    [f] have no such suffix. *)
Theorem stringSuffixIndexFunc_none (s : string) (f : Z -> bool) :
  s = "" \/ (byte_at s (String.length s - 1) < 128
             /\ f (byte_at s (String.length s - 1)) = false) ->
  stringSuffixIndexFunc s f = -1 /\ stringSuffixFunc s f = "".
Proof.
  intros H.
  assert (H' : stringSuffixIndexFunc s f = -1).
  { unfold stringSuffixIndexFunc, strings.LastIndexFunc, strings.lastIndexFunc.
    destruct H as [-> | [Hb Hf]]; [reflexivity|].
    destruct (String.length s) as [|n] eqn:Hn; [reflexivity|].
    cbn [strings.lastIndexFunc_from Nat.eqb].
    replace (slice s 0 (S n)) with (slice s 0 (String.length s))
      by now rewrite Hn.
    rewrite DecodeLastRuneInString_slice_ascii; rewrite ?Hn; [|lia|exact Hb].
    unfold suffix_callback at 1. rewrite Hf. reflexivity. }
  split; [exact H'|]. unfold stringSuffixFunc. now rewrite H'.
Qed.

(** C10, on a string where a two-byte rune precedes the suffix: for the
    bytes C3 A9 20 (e-acute, space) [stringSuffixIndexFunc] returns 1, the
    middle of the rune, where the suffix of spaces starts at 2; the text
    from 1 on holds a rune that is no space. *)
Theorem stringSuffixIndexFunc_multibyte :
  let s := bytes [0xC3; 0xA9; 0x20] in
  stringSuffixIndexFunc s unicode.IsSpace = 1
  /\ stringSuffixFunc s unicode.IsSpace = bytes [0xA9; 0x20]
  /\ all_runes unicode.IsSpace (slice_from s 1) = false
  /\ slice_from s 2 = " "
  /\ all_runes unicode.IsSpace (slice_from s 2) = true.
Proof. repeat split; vm_compute; reflexivity. Qed.

Example stringSuffixFunc_prompt :
  stringSuffixFunc "Continue?  " unicode.IsSpace = "  ".
Proof. vm_compute. reflexivity. Qed.

Example stringSuffixIndexFunc_no_space :
  stringSuffixIndexFunc "Continue?" unicode.IsSpace = -1.
Proof. vm_compute. reflexivity. Qed.

Example stringSuffixIndexFunc_all_space :
  stringSuffixIndexFunc "   " unicode.IsSpace = 0.
Proof. vm_compute. reflexivity. Qed.

(** ** [List]: the items *)

Lemma item_strings_texts (l : list Any) (strs : list string) (w : World) :
  texts l = Some strs -> item_strings l w = (Done strs, w).
Proof.
  revert strs. induction l as [|v l IH]; intros strs H; simpl in *.
  - now inversion H.
  - destruct (item_text v) as [s|] eqn:Hv; [|discriminate].
    destruct (texts l) as [strs'|]; [|discriminate].
    inversion H; subst. unfold bind.
    destruct v; try discriminate; simpl in Hv; inversion Hv; subst;
      simpl; now rewrite (IH strs' eq_refl).
Qed.

Lemma index_strs_lookup (strs : list string) (i : nat) (s : string)
    (w : World) :
  strs !! i = Some s -> index_strs strs (Z.of_nat i) w = (Done s, w).
Proof.
  intros H. unfold index_strs.
  pose proof (lookup_lt_Some _ _ _ H) as Hlt.
  replace (Z.of_nat i <? 0) with false by (symmetry; apply Z.ltb_ge; lia).
  replace (Z.of_nat (length strs) <=? Z.of_nat i) with false
    by (symmetry; apply Z.leb_gt; lia).
  simpl. rewrite Nat2Z.id, H. reflexivity.
Qed.

(** The type switch on the option of [Inline]. *)
Lemma inline_join (opt : Any) (join : string) (k : string -> M unit)
    (w : World) :
  join_option opt = Some join ->
  bind (match opt with
        | ANil => ret " or "
        | AString s => ret s
        | _ => panic (PanicError
                 (os.NewError "List option of unacceptable type"))
        end) k w = k join w.
Proof. intros H. destruct opt; try discriminate; inversion H; reflexivity. Qed.

(** C6: in [Inline] mode, for a list of exactly two items and an option
    that is nil or a string, [List] prints one line: the first item, the
    join string, and the first item again (the item at the same index in
    both places), followed by a newline. *)
Theorem List_inline_two (l : list Any) (a b : string) (opt : Any)
    (join : string) (w : World) :
  texts l = Some [a; b] ->
  join_option opt = Some join ->
  List (SliceOf l) Inline opt w
  = (Done tt, printed w [a +:+ join +:+ a +:+ newline]).
Proof.
  intros Hl Hj. unfold List, Inline.
  rewrite (bind_Done _ _ _ _ _ (item_strings_texts _ _ w Hl)).
  unfold List_inline. simpl.
  rewrite (inline_join _ _ _ _ Hj).
  unfold bind at 1. simpl. unfold bind at 1. simpl.
  rewrite <- !append_assoc. rewrite Say_newline. reflexivity.
Qed.

(** The theorem for C6 on a string and a Stringer. *)
Lemma List_inline_two_witness :
  List (SliceOf [AString "red"; AStringer "green"]) Inline (AString " and ")
       world0
  = (Done tt, printed world0 ["red and red" +:+ newline]).
Proof.
  exact (List_inline_two [AString "red"; AStringer "green"] "red" "green"
           (AString " and ") " and " world0 eq_refl eq_refl).
Defined.

(** C3, as amended: in [Inline] mode, for three or more items, the last item
    is prefixed with the join string as it is given (no blank is added),
    the items are joined with ", ", and the result is printed right-trimmed,
    followed by a newline. *)
Theorem List_inline_three_or_more (l : list Any) (init : list string)
    (last : string) (opt : Any) (join : string) (w : World) :
  texts l = Some (init ++ [last]) ->
  (2 <= length init)%nat ->
  join_option opt = Some join ->
  List (SliceOf l) Inline opt w
  = (Done tt,
     printed w [trimmed_line (strings.Join (init ++ [join +:+ last]) ", ")]).
Proof.
  intros Hl Hn Hj. unfold List, Inline.
  rewrite (bind_Done _ _ _ _ _ (item_strings_texts _ _ w Hl)).
  unfold List_inline.
  rewrite length_app. change (length [last]) with 1%nat.
  replace (Z.of_nat (length init + 1) =? 1) with false
    by (symmetry; apply Z.eqb_neq; lia).
  cbv iota. rewrite (inline_join _ _ _ _ Hj). cbv beta.
  replace (Z.of_nat (length init + 1) =? 2) with false
    by (symmetry; apply Z.eqb_neq; lia).
  cbv iota.
  replace (Z.of_nat (length init + 1) - 1) with (Z.of_nat (length init)) by lia.
  assert (Hlast : (init ++ [last]) !! length init = Some last).
  { rewrite lookup_app_r by lia. now rewrite Nat.sub_diag. }
  rewrite (bind_Done _ _ _ _ _ (index_strs_lookup _ _ _ w Hlast)).
  rewrite Nat2Z.id.
  replace (<[length init := join +:+ last]> (init ++ [last]))
    with (init ++ [join +:+ last]).
  - apply SayTrimmed_line.
  - rewrite insert_app_r_alt by lia. now rewrite Nat.sub_diag.
Qed.

(** The theorem for C3 on red, green, blue and the join word "or". *)
Lemma List_inline_three_or_more_witness :
  List (SliceOf [AString "red"; AString "green"; AString "blue"]) Inline
       (AString "or") world0
  = (Done tt, printed world0 ["red, green, orblue" +:+ newline]).
Proof.
  apply (List_inline_three_or_more
           [AString "red"; AString "green"; AString "blue"]
           ["red"; "green"] "blue" (AString "or") "or" world0);
    [reflexivity | simpl; lia | reflexivity].
Defined.

(** C3, as stated, fails: with the join word "or" the line printed for red,
    green, blue is "red, green, orblue", not "red, green, or blue". *)
Lemma List_inline_or_counterexample :
  let out := snd (run (List (SliceOf [AString "red"; AString "green";
                                      AString "blue"])
                            Inline (AString "or"))) in
  out = ["red, green, orblue" +:+ newline]
  /\ forall rest : string, out <> ["red, green, or blue" +:+ rest].
Proof.
  split; [vm_compute; reflexivity|].
  intros rest H. vm_compute in H. discriminate H.
Qed.

(** A single item in [Inline] mode is printed, and [List] returns, whatever
    the option is; its type is not looked at. *)
Lemma List_inline_single_skips_option (s : string) (opt : Any) (w : World) :
  List (SliceOf [AString s]) Inline opt w
  = (Done tt, printed w [trimmed_line s]).
Proof.
  unfold List, Inline.
  rewrite (bind_Done _ _ _ _ _ (item_strings_texts [AString s] [s] w eq_refl)).
  unfold List_inline. change (Z.of_nat (length [s]) =? 1) with true. cbv iota.
  rewrite (bind_Done _ _ _ _ _ (index_strs_lookup [s] 0 s w eq_refl)).
  apply SayTrimmed_line.
Qed.

Lemma List_columns_bad_option (l : list Any) (strs : list string)
    (mode : ListMode) (opt : Any) (w : World) :
  texts l = Some strs ->
  mode = ColumnsAcross \/ mode = ColumnsDown ->
  wrap_option opt = None ->
  List (SliceOf l) mode opt w
  = (Panicked (PanicError (os.NewError "List option of unacceptable type")), w).
Proof.
  intros Hl Hm Ho. unfold List.
  rewrite (bind_Done _ _ _ _ _ (item_strings_texts _ _ w Hl)).
  destruct Hm as [-> | ->]; unfold List_columns;
    destruct opt; try discriminate; reflexivity.
Qed.

Lemma List_inline_bad_option (l : list Any) (strs : list string)
    (opt : Any) (w : World) :
  texts l = Some strs ->
  length strs <> 1%nat ->
  join_option opt = None ->
  List (SliceOf l) Inline opt w
  = (Panicked (PanicError (os.NewError "List option of unacceptable type")), w).
Proof.
  intros Hl Hn Ho. unfold List, Inline.
  rewrite (bind_Done _ _ _ _ _ (item_strings_texts _ _ w Hl)).
  unfold List_inline.
  replace (Z.of_nat (length strs) =? 1) with false
    by (symmetry; apply Z.eqb_neq; lia).
  destruct opt; try discriminate; reflexivity.
Qed.

(** C7: for the items a, b, c, d, e in mode [ColumnsAcross] with wrap width
    5 the maximum width is 1, the number of columns is (5+1)/(1+1) = 3, and
    [List] prints the two rows "a b c" and "d e". *)
Theorem List_columns_across_example :
  let items := ["a"; "b"; "c"; "d"; "e"] in
  max_width items = 1
  /\ num_cols 5 (max_width items) = 3
  /\ run (List (SliceOf (map AString items)) ColumnsAcross (AInt 5))
     = (Done tt, ["a b c" +:+ newline; "d e" +:+ newline]).
Proof. repeat split; vm_compute; reflexivity. Qed.

(** When no more than one column fits, the column modes print rows. *)
Lemma List_columns_narrow (strs : list string) (mode : ListMode) (opt : Any)
    (wrap : Z) (w : World) :
  wrap_option opt = Some wrap ->
  num_cols wrap (max_width strs) <= 1 ->
  List_columns strs mode opt w = say_rows strs w.
Proof.
  intros Ho Hn. apply Z.leb_le in Hn. unfold List_columns.
  destruct opt; try discriminate; inversion Ho; subst;
    unfold bind at 1, ret at 1; cbv beta iota zeta; now rewrite Hn.
Qed.

(** C8: when the number of columns computed from the wrap width and the
    maximum item width is at most 1, [List] in mode [ColumnsAcross] or
    [ColumnsDown] does what it does in mode [Rows]: every item on a line of
    its own, right-trimmed. *)
Theorem List_columns_degrade_to_rows (l : list Any) (strs : list string)
    (mode : ListMode) (opt : Any) (wrap : Z) (w : World) :
  texts l = Some strs ->
  mode = ColumnsAcross \/ mode = ColumnsDown ->
  wrap_option opt = Some wrap ->
  num_cols wrap (max_width strs) <= 1 ->
  List (SliceOf l) mode opt w = List (SliceOf l) Rows opt w
  /\ List (SliceOf l) Rows opt w
     = (Done tt, printed w (map trimmed_line strs)).
Proof.
  intros Hl Hm Ho Hn.
  assert (Hrows : List (SliceOf l) Rows opt w
                  = (Done tt, printed w (map trimmed_line strs))).
  { unfold List, Rows.
    rewrite (bind_Done _ _ _ _ _ (item_strings_texts _ _ w Hl)).
    apply say_rows_lines. }
  split; [|exact Hrows]. rewrite Hrows. unfold List.
  rewrite (bind_Done _ _ _ _ _ (item_strings_texts _ _ w Hl)).
  rewrite <- (say_rows_lines strs w).
  destruct Hm as [-> | ->]; apply (List_columns_narrow _ _ _ _ _ Ho Hn).
Qed.

(** The theorem for C8 on two items, six and two bytes long, and wrap
    width 10. *)
Lemma List_columns_degrade_to_rows_witness :
  List (SliceOf [AString "alpha "; AStringer "be"]) ColumnsDown (AInt 10) world0
  = List (SliceOf [AString "alpha "; AStringer "be"]) Rows (AInt 10) world0
  /\ List (SliceOf [AString "alpha "; AStringer "be"]) Rows (AInt 10) world0
     = (Done tt, printed world0 ["alpha" +:+ newline; "be" +:+ newline]).
Proof.
  apply (List_columns_degrade_to_rows
           [AString "alpha "; AStringer "be"] ["alpha "; "be"]
           ColumnsDown (AInt 10) 10 world0);
    [reflexivity | right; reflexivity | reflexivity | vm_compute; discriminate].
Defined.

(** C9: in [Inline] mode, for an empty slice and an option that is nil or a
    string, [List] panics with the run-time error "index out of range",
    having printed nothing. *)
Theorem List_inline_empty_panics (opt : Any) (join : string) (w : World) :
  join_option opt = Some join ->
  List (SliceOf []) Inline opt w
  = (Panicked (PanicError (runtimeError "index out of range")), w).
Proof.
  intros Hj. unfold List, Inline.
  rewrite (bind_Done _ _ _ _ _ (item_strings_texts [] [] w eq_refl)).
  unfold List_inline. change (Z.of_nat (length []) =? 1) with false. cbv iota.
  rewrite (inline_join _ _ _ _ Hj). reflexivity.
Qed.

(** The theorem for C9 with the default join string. *)
Lemma List_inline_empty_panics_witness :
  List (SliceOf []) Inline ANil world0
  = (Panicked (PanicError (runtimeError "index out of range")), world0).
Proof. apply (List_inline_empty_panics ANil " or " world0). reflexivity. Defined.

Lemma item_strings_bad (l : list Any) (w : World) :
  texts l = None -> item_strings l w = (Panicked items_error, w).
Proof.
  induction l as [|v l IH]; simpl; [discriminate|].
  destruct (item_text v) as [s|] eqn:Hv.
  - destruct (texts l) as [strs|] eqn:Hl; [discriminate|]. intros _.
    unfold bind. destruct v; try discriminate; simpl;
      now rewrite (IH eq_refl).
  - intros _. destruct v; try discriminate; reflexivity.
Qed.

Lemma texts_length (l : list Any) (strs : list string) :
  texts l = Some strs -> length strs = length l.
Proof.
  revert strs. induction l as [|v l IH]; intros strs; simpl.
  - now inversion 1.
  - destruct (item_text v); [|discriminate].
    destruct (texts l) as [strs'|]; [|discriminate].
    inversion 1; subst. simpl. now rewrite (IH strs' eq_refl).
Qed.

(** C5, as amended: an option whose type the mode does not accept makes
    [List] panic before anything is printed, in the column modes always and
    in [Inline] mode unless the slice has exactly one item. *)
Theorem List_bad_option_aborts (items : ItemsArg) (mode : ListMode)
    (opt : Any) (w : World) :
  ((mode = ColumnsAcross \/ mode = ColumnsDown) /\ wrap_option opt = None)
  \/ (mode = Inline /\ join_option opt = None
      /\ forall v, items <> SliceOf [v]) ->
  exists v, List items mode opt w = (Panicked v, w).
Proof.
  intros H. destruct items as [l|]; [|eexists; reflexivity].
  destruct (texts l) as [strs|] eqn:Hl.
  - destruct H as [[Hm Ho] | (-> & Ho & Hn)].
    + eexists. apply (List_columns_bad_option l strs mode opt w Hl Hm Ho).
    + eexists. apply (List_inline_bad_option l strs opt w Hl); [|exact Ho].
      rewrite (texts_length _ _ Hl). intros Hlen.
      destruct l as [|v [|v' l]]; try discriminate. now apply (Hn v).
  - exists items_error. unfold List.
    apply (bind_Panicked _ _ _ _ _ (item_strings_bad l w Hl)).
Qed.

(** The theorem for C5 on two items and an int option in [Inline] mode. *)
Lemma List_bad_option_aborts_witness :
  exists v, List (SliceOf [AString "a"; AString "b"]) Inline (AInt 5) world0
            = (Panicked v, world0).
Proof.
  apply (List_bad_option_aborts (SliceOf [AString "a"; AString "b"]) Inline
           (AInt 5) world0).
  right. split; [reflexivity|]. split; [reflexivity|].
  intros v H. discriminate H.
Defined.

(** C5, as stated, fails: a one-item [Inline] list with an int option is
    printed, and [List] returns. *)
Lemma List_inline_single_counterexample :
  List (SliceOf [AString "a"]) Inline (AInt 5) world0
  = (Done tt, printed world0 ["a" +:+ newline])
  /\ join_option (AInt 5) = None.
Proof. split; vm_compute; reflexivity. Qed.


Lemma Say_printed (msg : string) (w : World) :
  Say msg w = (Done tt, printed w [say_text msg]).
Proof.
  unfold Say, say_text.
  destruct (utf8.DecodeLastRuneInString msg) as [c n]. simpl.
  destruct (unicode.IsSpace c); reflexivity.
Qed.

(** ** Computations that end *)

Lemma steady_ret {A} (a : A) : steady (ret a).
Proof. intros w. now split. Qed.

Lemma steady_panic {A} (v : PanicValue) : steady (@panic A v).
Proof. intros w. now split. Qed.

Lemma steady_bind {A B} (m : M A) (k : A -> M B) :
  steady m -> (forall a, steady (k a)) -> steady (bind m k).
Proof.
  intros Hm Hk w. unfold bind. specialize (Hm w).
  destruct (m w) as [[a | v | ] w'] eqn:E; simpl in *.
  - destruct Hm as [<- _]. apply Hk.
  - split; [apply Hm | discriminate].
  - now destruct Hm as [_ []].
Qed.

Lemma steady_Say (msg : string) : steady (Say msg).
Proof. intros w. rewrite Say_printed. now split. Qed.

Lemma steady_panicUnrecoverable (e : Error) : steady (panicUnrecoverable e).
Proof.
  unfold panicUnrecoverable.
  destruct (IsRecoverable e); [apply steady_ret | apply steady_panic].
Qed.

Lemma steady_set_mem (v : Value) : steady (set_mem v).
Proof. intros w. now split. Qed.

Lemma steady_get_mem : steady get_mem.
Proof. intros w. now split. Qed.

Lemma steady_call_Panic (f : PanicFunc) (e : Error) : steady (call_Panic f e).
Proof.
  induction f as [name | f IH]; simpl.
  - intros w. now split.
  - apply steady_bind; [intros w; now split | intros _; exact IH].
Qed.

(** ** [List] ends *)

Lemma int_wrap_range (z : Z) : - 2 ^ 31 <= int_wrap z < 2 ^ 31.
Proof.
  unfold int_wrap.
  pose proof (Z.mod_pos_bound (z + 2 ^ 31) (2 ^ 32) eq_refl). lia.
Qed.

Lemma int_wrap_shift (z : Z) : exists k, int_wrap z = z + 2 ^ 32 * k.
Proof.
  unfold int_wrap. exists (- ((z + 2 ^ 31) / 2 ^ 32)).
  pose proof (Z.div_mod (z + 2 ^ 31) (2 ^ 32)). lia.
Qed.

Lemma int_wrap_small (z : Z) : - 2 ^ 31 <= z < 2 ^ 31 -> int_wrap z = z.
Proof.
  intros H. unfold int_wrap. rewrite Z.mod_small by lia. lia.
Qed.

Lemma bind_ret {A B} (a : A) (k : A -> M B) : bind (ret a) k = k a.
Proof. reflexivity. Qed.

Lemma steady_SayTrimmed (msg : string) : steady (SayTrimmed msg).
Proof. apply steady_Say. Qed.

Lemma steady_say_rows (strs : list string) : steady (say_rows strs).
Proof.
  induction strs as [|s strs IH]; simpl; [apply steady_ret|].
  apply steady_bind; [apply steady_SayTrimmed | intros _; exact IH].
Qed.

Lemma steady_item_strings (l : list Any) : steady (item_strings l).
Proof.
  induction l as [|v l IH]; simpl; [apply steady_ret|].
  apply steady_bind.
  - destruct v; apply steady_ret || apply steady_panic.
  - intros s. apply steady_bind; [exact IH | intros; apply steady_ret].
Qed.

Lemma steady_index_strs (strs : list string) (i : Z) :
  steady (index_strs strs i).
Proof.
  unfold index_strs. destruct (_ || _); [apply steady_panic|].
  destruct (strs !! Z.to_nat i); [apply steady_ret | apply steady_panic].
Qed.

(** The [ColumnsAcross] loop ends: every row starts further on. *)
Lemma steady_across_loop (strs : list string) (ncols : Z) :
  1 <= ncols < 2 ^ 32 ->
  forall (fuel : nat) (i : Z),
    0 <= i -> (Z.to_nat (Z.of_nat (length strs) - i) <= fuel)%nat ->
    steady (across_loop fuel strs (Z.of_nat (length strs)) ncols i).
Proof.
  intros Hc. induction fuel as [|fuel IH]; intros i Hi Hfuel.
  - simpl. destruct (i <? _) eqn:E; [|apply steady_ret].
    apply Z.ltb_lt in E. lia.
  - cbn [across_loop]. destruct (i <? _) eqn:E; [|apply steady_ret].
    apply Z.ltb_lt in E.
    destruct (int_wrap_shift (i + ncols)) as [k Hk].
    set (e := int_wrap (i + ncols)) in *.
    unfold slice_strs.
    destruct (_ || _) eqn:Hb.
    + intros w. now split.
    + apply orb_false_elim in Hb as [Hb Hb3].
      apply orb_false_elim in Hb as [Hb1 Hb2].
      apply Z.ltb_ge in Hb1, Hb2, Hb3.
      rewrite bind_ret.
      apply steady_bind; [apply steady_SayTrimmed | intros _].
      destruct (e >? Z.of_nat (length strs)) eqn:Hgt.
      * apply IH; lia.
      * apply IH; lia.
Qed.

(** The inner [ColumnsDown] loop ends: the index grows with the column. *)
Lemma steady_down_row (strs : list string) (nrows ncols i : Z) :
  Z.of_nat (length strs) < 2 ^ 31 ->
  1 <= nrows <= 2 ^ 30 -> 0 <= i < nrows ->
  forall (fuel : nat) (j : Z) (row : list string),
    0 <= j <= Z.of_nat (length strs) ->
    j * nrows + i < Z.of_nat (length strs) + nrows ->
    (Z.to_nat (Z.of_nat (length strs) - j) < fuel)%nat ->
    steady (down_row fuel strs (Z.of_nat (length strs)) nrows ncols i j row).
Proof.
  intros Hn Hr Hi. induction fuel as [|fuel IH]; intros j row Hj Hv Hfuel;
    [lia|].
  cbn [down_row]. destruct (j <? ncols) eqn:E; [|apply steady_ret].
  apply Z.ltb_lt in E.
  destruct (int_wrap_shift (j * nrows)) as [k1 Hk1].
  destruct (int_wrap_shift (int_wrap (j * nrows) + i)) as [k2 Hk2].
  pose proof (int_wrap_range (int_wrap (j * nrows) + i)) as Hrange.
  set (index := int_wrap (int_wrap (j * nrows) + i)) in *.
  destruct (index >=? _) eqn:Hge; [apply steady_ret|].
  unfold index_strs.
  destruct (_ || _) eqn:Hb; [intros w; now split|].
  apply orb_false_elim in Hb as [Hb1 Hb2].
  apply Z.ltb_ge in Hb1. apply Z.leb_gt in Hb2.
  assert (Hidx : index = j * nrows + i) by nia.
  destruct (strs !! Z.to_nat index) as [s|]; [|intros w; now split].
  rewrite bind_ret.
  assert (Hjn : j < Z.of_nat (length strs)) by nia.
  rewrite (int_wrap_small (j + 1)) by lia.
  apply IH; nia.
Qed.

(** The outer [ColumnsDown] loop ends. *)
Lemma steady_down_loop (strs : list string) (nrows ncols : Z) :
  Z.of_nat (length strs) < 2 ^ 31 ->
  nrows <= 2 ^ 30 ->
  forall (fuel : nat) (i : Z),
    0 <= i -> (Z.to_nat (nrows - i) <= fuel)%nat ->
    steady (down_loop fuel strs (Z.of_nat (length strs)) nrows ncols i).
Proof.
  intros Hn Hr. induction fuel as [|fuel IH]; intros i Hi Hfuel.
  - simpl. destruct (i <? nrows) eqn:E; [|apply steady_ret].
    apply Z.ltb_lt in E. lia.
  - cbn [down_loop]. destruct (i <? nrows) eqn:E; [|apply steady_ret].
    apply Z.ltb_lt in E.
    apply steady_bind.
    + apply steady_down_row; simpl; lia.
    + intros row. apply steady_bind; [apply steady_SayTrimmed | intros _].
      rewrite (int_wrap_small (i + 1)) by lia.
      apply IH; lia.
Qed.

Lemma quot_abs_le (a b : Z) : Z.abs (a ÷ b) <= Z.abs a.
Proof.
  destruct (Z.eq_dec b 0) as [-> | Hb].
  - replace (a ÷ 0) with 0 by (destruct a; reflexivity). lia.
  - rewrite <- Z.quot_abs by exact Hb.
    apply Z.quot_le_upper_bound; nia.
Qed.

Lemma quot_half (a b : Z) : 2 <= b -> Z.abs a <= 2 ^ 31 -> a ÷ b <= 2 ^ 30.
Proof.
  intros Hb Ha.
  assert (H : Z.abs (a ÷ b) <= 2 ^ 30).
  { rewrite <- Z.quot_abs by lia.
    apply Z.quot_le_upper_bound; lia. }
  lia.
Qed.

Lemma steady_List_columns (strs : list string) (mode : ListMode) (opt : Any) :
  Z.of_nat (length strs) < 2 ^ 31 ->
  steady (List_columns strs mode opt).
Proof.
  intros Hn. unfold List_columns. apply steady_bind.
  - destruct opt; apply steady_ret || apply steady_panic.
  - intros wrap. cbv zeta.
    destruct (num_cols wrap (max_width strs) <=? 1) eqn:E;
      [apply steady_say_rows|].
    apply Z.leb_gt in E.
    set (ncols := num_cols wrap (max_width strs)) in *.
    assert (Hc : ncols <= 2 ^ 31).
    { unfold ncols, num_cols.
      pose proof (quot_abs_le (int_wrap (wrap + 1))
                              (int_wrap (max_width strs + 1))).
      pose proof (int_wrap_range (wrap + 1)). lia. }
    destruct mode as [|[[]|[]|]]; try apply steady_ret.
    + rewrite <- (length_map (Sprintf_pad (max_width strs)) strs).
      apply steady_across_loop; [lia | lia |].
      rewrite length_map. lia.
    + set (nrows := _ ÷ ncols).
      assert (Hr : nrows <= 2 ^ 30).
      { apply quot_half; [lia|].
        pose proof (int_wrap_range
                      (int_wrap (Z.of_nat (length strs) + ncols) - 1)). lia. }
      rewrite <- (length_map (Sprintf_pad (max_width strs)) strs).
      apply steady_down_loop; rewrite ?length_map; lia.
Qed.

Lemma steady_List_inline (strs : list string) (opt : Any) :
  steady (List_inline strs opt).
Proof.
  unfold List_inline. destruct (_ =? 1).
  - apply steady_bind; [apply steady_index_strs | intros; apply steady_SayTrimmed].
  - apply steady_bind.
    + destruct opt; apply steady_ret || apply steady_panic.
    + intros join. destruct (_ =? 2).
      * apply steady_bind; [apply steady_index_strs | intros a].
        apply steady_bind; [apply steady_index_strs | intros b].
        apply steady_Say.
      * apply steady_bind; [apply steady_index_strs | intros last].
        apply steady_SayTrimmed.
Qed.

(** X15: [List] reads nothing and ends, with a result or with a panic,
    whatever the mode, the option and the items are, for a slice as long as
    an [int] can say: its loops stop also where the arithmetic on [int]
    wraps around. *)
Theorem List_ends (l : list Any) (mode : ListMode) (opt : Any) :
  Z.of_nat (length l) < 2 ^ 31 ->
  steady (List (SliceOf l) mode opt).
Proof.
  intros Hn. unfold List.
  destruct (texts l) as [strs|] eqn:Hl.
  - intros w. pose proof (item_strings_texts l strs w Hl) as Hs.
    rewrite (bind_Done _ _ _ _ _ Hs).
    pose proof (texts_length l strs Hl) as Hlen.
    destruct mode as [|[[]|[]|]];
      first [ apply steady_List_columns; lia
            | apply steady_say_rows
            | apply steady_List_inline
            | now split ].
  - intros w. rewrite (bind_Panicked _ _ _ _ _ (item_strings_bad l w Hl)).
    now split.
Qed.

(** ** [Ask] ends *)

Section AskProperties.

Context `{QM : QuestionMethods}.

Lemma steady_contFunc (e : Error) : steady (contFunc e).
Proof. apply steady_Say. Qed.

(** The read loop has fuel enough, and a response costs input. *)
Lemma read_response_fuel (fuel : nat) (resp : string) (w : World) :
  (length (stdin w) < fuel)%nat ->
  match read_response fuel resp w with
  | (NoFuel, _) => False
  | (Done (Some _), w') => (length (stdin w') < length (stdin w))%nat
  | (_, w') => (length (stdin w') <= length (stdin w))%nat
  end.
Proof.
  revert resp w. induction fuel as [|fuel IH]; intros resp w Hlt; [lia|].
  simpl. unfold bind at 1, ReadLine.
  destruct w as [out inp m ce nt]; simpl in *.
  destruct inp as [|[s isPrefix | e] rest]; simpl.
  - unfold bind, panicUnrecoverable.
    destruct (IsRecoverable os.EOF); simpl; lia.
  - destruct isPrefix.
    + specialize (IH (resp +:+ s) (mkWorld out rest m ce nt)).
      simpl in IH.
      destruct (read_response fuel (resp +:+ s) (mkWorld out rest m ce nt))
        as [[[r|] | v | ] w'] eqn:E; simpl in *;
        (assert (length rest < fuel)%nat as Hr by lia; specialize (IH Hr));
        lia || exact IH.
    + simpl. lia.
  - unfold bind, panicUnrecoverable.
    destruct (IsRecoverable e); simpl; lia.
Qed.

Lemma read_line_fuel (w : World) :
  match read_line w with
  | (NoFuel, _) => False
  | (Done (Some _), w') => (length (stdin w') < length (stdin w))%nat
  | (_, w') => (length (stdin w') <= length (stdin w))%nat
  end.
Proof. apply read_response_fuel. unfold rounds. lia. Qed.

Lemma retry_fuel (err : Error) (next : M unit) (w : World) :
  (forall w', stdin w' = stdin w -> fst (next w') <> NoFuel) ->
  fst (retry err next w) <> NoFuel.
Proof.
  intros Hnext. unfold retry, bind.
  destruct (steady_panicUnrecoverable err w) as [H1 H1'].
  destruct (panicUnrecoverable err w) as [[[] | v | ] w1]; simpl in *;
    [|discriminate|congruence].
  destruct (steady_contFunc err w1) as [H2 H2'].
  destruct (contFunc err w1) as [[[] | v | ] w2]; simpl in *;
    [|discriminate|congruence].
  apply Hnext. congruence.
Qed.

Lemma ask_loop_fuel (fuel : nat) (q : Question) (dest : PtrTarget)
    (prompt : string) (w : World) :
  (length (stdin w) < fuel)%nat ->
  fst (ask_loop fuel q dest prompt w) <> NoFuel.
Proof.
  revert q prompt w. induction fuel as [|fuel IH]; intros q prompt w Hlt;
    [lia|].
  simpl. unfold bind at 1. rewrite Say_printed.
  set (w1 := printed w _).
  unfold bind at 1.
  pose proof (read_line_fuel w1) as Hr.
  destruct (read_line w1) as [[[resp|] | v | ] w2]; simpl in Hr;
    [| simpl; discriminate | simpl; discriminate | contradiction].
  assert (Hw2 : (length (stdin w2) < fuel)%nat) by (subst w1; simpl in *; lia).
  destruct (parse q resp) as [val [err|]].
  - apply retry_fuel. intros w' Hw'. apply IH. rewrite Hw'. exact Hw2.
  - unfold bind at 1, get_mem.
    destruct (setDest (set_val val q) dest (mem w2)) as [new [err|]].
    + unfold bind at 1, set_mem.
      apply retry_fuel. intros w' Hw'. apply IH. rewrite Hw'. exact Hw2.
    + simpl. discriminate.
Qed.

(** X22: on an input that ends, [Ask] ends, with a result or with a panic:
    the prompt loop takes at least one read from the input in every round,
    and the read at the end of the input fails. *)
Theorem Ask_ends (dest : Dest) (msg : string)
    (config : option (Question -> Question)) (w : World) :
  fst (Ask dest msg config w) <> NoFuel.
Proof.
  assert (Hd : forall q body, fst (body w) <> NoFuel ->
                 fst (ask_deferred q body w) <> NoFuel).
  { intros q body Hb. unfold ask_deferred.
    destruct (body w) as [[[] | [err | s] | ] w']; simpl in *;
      try discriminate; try congruence.
    destruct q as [q|]; [|simpl; discriminate].
    destruct (q_Panic q) as [f|]; [|simpl; discriminate].
    apply (steady_bind _ (fun _ => ret None)
             (steady_call_Panic f err) (fun _ => steady_ret None)). }
  destruct dest as [t | | k]; unfold Ask; apply Hd.
  - unfold ask_answer.
    destruct (tryFirstAnswer _) as [val [err|]].
    + apply ask_loop_fuel. unfold rounds. lia.
    + destruct val as [v|]; cbn [q_val set_val].
      * unfold bind at 1, get_mem.
        destruct (setDest _ t (mem w)) as [new [err|]].
        -- unfold bind, set_mem.
           apply (steady_panicUnrecoverable err).
        -- simpl. discriminate.
      * apply ask_loop_fuel. unfold rounds. lia.
  - apply steady_panicUnrecoverable.
  - apply steady_panicUnrecoverable.
Qed.

End AskProperties.

(** A callback returns, and leaves the error [Confirm] recorded in place. *)
Lemma call_Panic_Done (f : PanicFunc) (e : Error) (w : World) :
  exists w', call_Panic f e w = (Done tt, w')
             /\ stdout w' = stdout w /\ mem w' = mem w
             /\ (confirm_err w = Some e -> confirm_err w' = Some e).
Proof.
  revert w. induction f as [name | f IH]; intros w; simpl.
  - eexists. split; [reflexivity|]. simpl. auto.
  - unfold bind, set_confirm_err.
    destruct (IH (mkWorld (stdout w) (stdin w) (mem w) (Some e) (notified w)))
      as (w' & -> & Ho & Hm & Hc).
    exists w'. simpl in *. auto.
Qed.

Lemma call_ConfirmFunc (f : PanicFunc) (e : Error) (w : World) :
  exists w', call_Panic (ConfirmFunc f) e w = (Done tt, w')
             /\ stdout w' = stdout w /\ mem w' = mem w
             /\ confirm_err w' = Some e.
Proof.
  simpl. unfold bind, set_confirm_err.
  destruct (call_Panic_Done f e
              (mkWorld (stdout w) (stdin w) (mem w) (Some e) (notified w)))
    as (w' & -> & Ho & Hm & Hc).
  exists w'. simpl in *. auto.
Qed.

(** ** [Ask] and the error variable of [Confirm] *)

Lemma quiet_ret {A} (a : A) : quiet (ret a).
Proof. intros w. reflexivity. Qed.

Lemma quiet_panic {A} (v : PanicValue) : quiet (@panic A v).
Proof. intros w. reflexivity. Qed.

Lemma quiet_bind {A B} (m : M A) (k : A -> M B) :
  quiet m -> (forall a, quiet (k a)) -> quiet (bind m k).
Proof.
  intros Hm Hk w. unfold bind. specialize (Hm w).
  destruct (m w) as [[a | v | ] w']; simpl in *; [|exact Hm..].
  rewrite <- Hm. apply Hk.
Qed.

Lemma quiet_Say (msg : string) : quiet (Say msg).
Proof. intros w. now rewrite Say_printed. Qed.

Lemma quiet_panicUnrecoverable (e : Error) : quiet (panicUnrecoverable e).
Proof.
  unfold panicUnrecoverable.
  destruct (IsRecoverable e); [apply quiet_ret | apply quiet_panic].
Qed.

Lemma quiet_ReadLine : quiet ReadLine.
Proof.
  intros w. unfold ReadLine. destruct (stdin w) as [|[s p | e] rest];
    reflexivity.
Qed.

Lemma quiet_set_mem (v : Value) : quiet (set_mem v).
Proof. intros w. reflexivity. Qed.

Lemma quiet_get_mem : quiet get_mem.
Proof. intros w. reflexivity. Qed.

(** ** [Ask]: results *)

Section AskResults.

Context `{QM : QuestionMethods}.

(** No path through [Ask] assigns the result [e]. *)
Lemma Ask_returns_nil (dest : Dest) (msg : string)
    (config : option (Question -> Question)) (w w' : World)
    (e : option Error) :
  Ask dest msg config w = (Done e, w') -> e = None.
Proof.
  assert (Hd : forall q body, ask_deferred q body w = (Done e, w') -> e = None).
  { intros q body. unfold ask_deferred.
    destruct (body w) as [[[] | [err | s] | ] w1]; try discriminate.
    - now inversion 1.
    - destruct q as [q|]; [|discriminate].
      destruct (q_Panic q) as [f|]; [|now inversion 1].
      unfold bind.
      destruct (call_Panic_Done f err w1) as (w2 & -> & _).
      now inversion 1. }
  destruct dest; unfold Ask; apply Hd.
Qed.

(** C2, as amended: when the body of [Ask], called with a pointer
    destination, ends in a panic with an error, [Ask] hands the error to the
    failure callback of the question, if there is one, and returns nil; no
    call of [Ask] returns an error that is not nil. *)
Theorem Ask_fatal_error_returns_nil (t : PtrTarget) (msg : string)
    (config : option (Question -> Question)) (w w1 : World) (err : Error) :
  ask_answer (ask_question t msg config) t msg w
  = (Panicked (PanicError err), w1) ->
  (exists w2,
     Ask (PtrTo t) msg config w = (Done None, w2)
     /\ match q_Panic (ask_question t msg config) with
        | Some f => call_Panic f err w1 = (Done tt, w2)
        | None => w2 = w1
        end)
  /\ (forall dest e w', Ask dest msg config w = (Done e, w') -> e = None).
Proof.
  intros Hbody. split.
  - unfold Ask, ask_deferred. rewrite Hbody.
    destruct (q_Panic (ask_question t msg config)) as [f|].
    + destruct (call_Panic_Done f err w1) as (w2 & Hc & _).
      exists w2. unfold bind. rewrite Hc. auto.
    + exists w1. auto.
  - intros dest e w'. apply Ask_returns_nil.
Qed.

(** A read failure that [panicUnrecoverable] does not let pass ends the
    prompt loop with a panic, right after the prompt is written. *)
Lemma ask_loop_read_error (fuel : nat) (q : Question) (dest : PtrTarget)
    (prompt : string) (w : World) (e : Error) (rest : list ReadResult) :
  stdin w = ReadError e :: rest ->
  IsRecoverable e = false ->
  ask_loop (S fuel) q dest prompt w
  = (Panicked (PanicError e),
     mkWorld (stdout w ++ [say_text (prompt +:+ defaultString q
                             (stringSuffixFunc prompt unicode.IsSpace))])
             rest (mem w) (confirm_err w) (notified w)).
Proof.
  intros Hin He. simpl. unfold bind at 1. rewrite Say_printed.
  unfold bind at 1, read_line, rounds. simpl stdin. rewrite Hin.
  simpl. unfold bind at 1, ReadLine. simpl stdin. rewrite Hin.
  unfold bind, panicUnrecoverable. rewrite He. reflexivity.
Qed.



(** ** [Confirm] *)

Lemma quiet_read_response (fuel : nat) (resp : string) :
  quiet (read_response fuel resp).
Proof.
  revert resp. induction fuel as [|fuel IH]; intros resp; simpl.
  - intros w. reflexivity.
  - apply quiet_bind; [apply quiet_ReadLine|].
    intros [[s isPrefix] [e|]].
    + apply quiet_bind; [apply quiet_panicUnrecoverable|].
      intros _. apply quiet_ret.
    + destruct isPrefix; [apply IH | apply quiet_ret].
Qed.

Lemma quiet_read_line : quiet read_line.
Proof. intros w. apply quiet_read_response. Qed.

Lemma quiet_retry (err : Error) (next : M unit) :
  quiet next -> quiet (retry err next).
Proof.
  intros H. unfold retry.
  apply quiet_bind; [apply quiet_panicUnrecoverable | intros _].
  apply quiet_bind; [apply quiet_Say | intros _; exact H].
Qed.

Lemma quiet_ask_loop (fuel : nat) (q : Question) (dest : PtrTarget)
    (prompt : string) :
  quiet (ask_loop fuel q dest prompt).
Proof.
  revert q prompt. induction fuel as [|fuel IH]; intros q prompt; simpl.
  - intros w. reflexivity.
  - apply quiet_bind; [apply quiet_Say | intros _].
    apply quiet_bind; [apply quiet_read_line | intros [resp|]];
      [|apply quiet_ret].
    destruct (parse q resp) as [val [err|]].
    + apply quiet_retry, IH.
    + apply quiet_bind; [apply quiet_get_mem | intros old].
      destruct (setDest (set_val val q) dest old) as [new [err|]].
      * apply quiet_bind; [apply quiet_set_mem | intros _].
        apply quiet_retry, IH.
      * apply quiet_bind; [apply quiet_set_mem | intros _; apply quiet_ret].
Qed.

Lemma quiet_ask_answer (q : Question) (dest : PtrTarget) (msg : string) :
  quiet (ask_answer q dest msg).
Proof.
  unfold ask_answer. destruct (tryFirstAnswer q) as [val [err|]].
  - intros w. apply quiet_ask_loop.
  - destruct val as [v|]; cbn [q_val set_val].
    + apply quiet_bind; [apply quiet_get_mem | intros old].
      destruct (setDest _ dest old) as [new [err|]].
      * apply quiet_bind; [apply quiet_set_mem | intros _].
        apply quiet_panicUnrecoverable.
      * apply quiet_bind; [apply quiet_set_mem | intros _; apply quiet_ret].
    + intros w. apply quiet_ask_loop.
Qed.

Lemma confirm_question_Panic (question : string) (yes : bool)
    (config : option (Question -> Question)) (g : PanicFunc) :
  q_Panic (confirm_question question yes config) = Some g ->
  exists f, g = ConfirmFunc f.
Proof.
  unfold confirm_question, ask_question, confirm_config. cbv zeta.
  match goal with
  | |- context [match q_Panic ?X with _ => _ end] =>
    destruct (q_Panic X) as [f|] eqn:E
  end.
  - simpl. inversion 1. eauto.
  - rewrite E. discriminate.
Qed.

(** When [Ask] fails and the configured question has a failure callback,
    [Confirm] returns false. *)
Lemma Confirm_callback_false (question : string) (yes : bool)
    (config : option (Question -> Question)) (w w1 : World) (err : Error) :
  ask_answer (confirm_question question yes config) T_string question
             (confirm_start w)
  = (Panicked (PanicError err), w1) ->
  is_Some (q_Panic (confirm_question question yes config)) ->
  exists w2, Confirm question yes config w = (Done false, w2).
Proof.
  intros Hbody [g Hg].
  destruct (confirm_question_Panic _ _ _ _ Hg) as [f ->].
  destruct (call_ConfirmFunc f err w1) as (w2 & Hc & _ & _ & Herr).
  exists w2. unfold Confirm.
  unfold bind at 1, set_mem. unfold bind at 1, set_confirm_err.
  cbn [stdout stdin mem confirm_err notified].
  fold (confirm_start w).
  unfold bind at 1, Ask, ask_deferred.
  fold (confirm_question question yes config).
  rewrite Hbody, Hg. unfold bind at 1. rewrite Hc.
  unfold ret at 1. unfold bind at 1, get_confirm_err. rewrite Herr.
  reflexivity.
Qed.

(** C1, what the code does where the claim fails: when [Ask] fails, the
    configured question has no failure callback and [okstr] is still empty,
    [Confirm] does not return false, it panics on [okstr[0]]. *)
Theorem Confirm_no_callback_panics (question : string) (yes : bool)
    (config : option (Question -> Question)) (w w1 : World) (err : Error) :
  ask_answer (confirm_question question yes config) T_string question
             (confirm_start w)
  = (Panicked (PanicError err), w1) ->
  q_Panic (confirm_question question yes config) = None ->
  mem w1 = VString "" ->
  Confirm question yes config w
  = (Panicked (PanicError (runtimeError "index out of range")), w1).
Proof.
  intros Hbody Hq Hmem.
  assert (Herr : confirm_err w1 = None).
  { pose proof (quiet_ask_answer (confirm_question question yes config)
                  T_string question (confirm_start w)) as Hk.
    rewrite Hbody in Hk. exact Hk. }
  unfold Confirm.
  unfold bind at 1, set_mem. unfold bind at 1, set_confirm_err.
  cbn [stdout stdin mem confirm_err notified].
  fold (confirm_start w).
  unfold bind at 1, Ask, ask_deferred.
  fold (confirm_question question yes config).
  rewrite Hbody, Hq.
  unfold bind at 1, get_confirm_err. rewrite Herr.
  unfold bind at 1, get_mem. rewrite Hmem. reflexivity.
Qed.

End AskResults.

(** ** The prompting functions on concrete input *)

Section Runs.

Import SpecQuestion.

(** The theorem for C2 at the end of the input, with a callback named
    "log". *)
Lemma Ask_fatal_error_returns_nil_witness :
  (exists w2,
     Ask (PtrTo T_string) "Name? " (Some (set_Panic (Some (CallerFunc "log"))))
         (world_in []) = (Done None, w2)
     /\ match q_Panic (ask_question T_string "Name? "
                         (Some (set_Panic (Some (CallerFunc "log"))))) with
        | Some f => call_Panic f os.EOF (printed (world_in []) ["Name? "])
                    = (Done tt, w2)
        | None => w2 = printed (world_in []) ["Name? "]
        end)
  /\ (forall dest e w',
        Ask dest "Name? " (Some (set_Panic (Some (CallerFunc "log"))))
            (world_in []) = (Done e, w') -> e = None).
Proof.
  apply (Ask_fatal_error_returns_nil T_string "Name? "
           (Some (set_Panic (Some (CallerFunc "log")))) (world_in [])
           (printed (world_in []) ["Name? "]) os.EOF).
  vm_compute. reflexivity.
Defined.

(** C2, as stated, fails: at the end of the input the read fails, the body
    of [Ask] panics with [os.EOF], and [Ask] returns nil. *)
Lemma Ask_read_failure_counterexample :
  ask_answer (ask_question T_string "Name? " None) T_string "Name? "
             (world_in [])
  = (Panicked (PanicError os.EOF), printed (world_in []) ["Name? "])
  /\ Ask (PtrTo T_string) "Name? " None (world_in [])
     = (Done None, printed (world_in []) ["Name? "])
  /\ ~ (exists e w', Ask (PtrTo T_string) "Name? " None (world_in [])
                     = (Done (Some e), w')).
Proof.
  split; [vm_compute; reflexivity|].
  split; [vm_compute; reflexivity|].
  intros (e & w' & H). vm_compute in H. discriminate H.
Qed.

(** [Confirm] at the end of the input, with no configuration and with one
    that clears the failure callback. *)
Example Confirm_at_end_of_input :
  Confirm "Continue? " true None (world_in [])
  = (Panicked (PanicError (runtimeError "index out of range")),
     printed (world_in []) ["Continue? |yes| "])
  /\ Confirm "Continue? " true (Some (set_Panic None)) (world_in [])
     = (Panicked (PanicError (runtimeError "index out of range")),
        printed (world_in []) ["Continue? |yes| "]).
Proof. split; vm_compute; reflexivity. Qed.

(** [Ask] for a uint8 when the answer is too large for it: with the
    narrowing error of section 4.1 the call ends after the first answer,
    the destination is as it was and the second line is not read. *)
Example Ask_uint8_overflow_run :
  Ask (PtrTo T_uint8) "Age? " None
      (mkWorld [] [Line "300" false; Line "7" false] (VUint 0) None [])
  = (Done None, mkWorld ["Age? "] [Line "7" false] (VUint 0) None []).
Proof. vm_compute. reflexivity. Qed.

(** The theorem for C1 at the end of the input. *)
Lemma Confirm_no_callback_panics_witness :
  Confirm "Continue? " true None (world_in [])
  = (Panicked (PanicError (runtimeError "index out of range")),
     printed (world_in []) ["Continue? |yes| "]).
Proof.
  apply (Confirm_no_callback_panics "Continue? " true None (world_in [])
           (printed (world_in []) ["Continue? |yes| "]) os.EOF);
    vm_compute; reflexivity.
Defined.


End Runs.

(** * Further properties *)

(** ** More on the output helpers *)

(** X4: what [Say] writes always ends in white space: it is [msg] as it is
    when the last rune of [msg] is white space, and [msg] followed by a
    newline otherwise. *)
Theorem Say_ends_in_space (msg : string) (w : World) :
  exists out,
    Say msg w = (Done tt, printed w [out])
    /\ (out = msg \/ out = msg +:+ newline)
    /\ (out = msg <-> unicode.IsSpace (last_rune msg) = true)
    /\ unicode.IsSpace (last_rune out) = true.
Proof.
  exists (say_text msg). split; [apply Say_printed|].
  unfold say_text, last_rune.
  destruct (unicode.IsSpace (fst (utf8.DecodeLastRuneInString msg))) eqn:E.
  - repeat split; auto.
  - split; [now right|]. split.
    + split; [|discriminate]. intros H.
      assert (Hl : String.length (msg +:+ newline) = String.length msg)
        by now rewrite H.
      rewrite length_append in Hl. simpl in Hl. lia.
    + unfold newline.
      rewrite DecodeLastRuneInString_ascii by (vm_compute; reflexivity).
      reflexivity.
Qed.

(** The scan of [TrimRightFunc] passes over ASCII bytes that satisfy [f]. *)
Lemma lastIndexFunc_from_skip (s : string) (f : Z -> bool) (n : nat) :
  forall (i fuel : nat),
    (i + n <= String.length s)%nat ->
    (forall j, (i <= j < i + n)%nat ->
               byte_at s j < 128 /\ f (byte_at s j) = true) ->
    strings.lastIndexFunc_from (n + fuel) s (i + n) (strings.pure_pred f)
                               false tt
    = strings.lastIndexFunc_from fuel s i (strings.pure_pred f) false tt.
Proof.
  induction n as [|n IH]; intros i fuel Hlen Hall.
  - simpl. now rewrite Nat.add_0_r.
  - change (S n + fuel)%nat with (S (n + fuel)).
    cbn [strings.lastIndexFunc_from].
    replace (i + S n =? 0)%nat with false by (symmetry; apply Nat.eqb_neq; lia).
    destruct (Hall (i + n)%nat) as [Hb Hf]; [lia|].
    rewrite DecodeLastRuneInString_slice_ascii;
      replace (i + S n - 1)%nat with (i + n)%nat by lia; [|lia|exact Hb].
    unfold strings.pure_pred at 1. rewrite Hf. cbn [Bool.eqb].
    apply IH; [lia|]. intros j Hj. apply Hall. lia.
Qed.

(** Where the scan of [TrimRightFunc] stops on a string that ends in ASCII
    bytes satisfying [f]. *)
Lemma lastIndexFunc_ascii (s : string) (f : Z -> bool) (i : nat) :
  (i <= String.length s)%nat ->
  (forall j, (i <= j < String.length s)%nat ->
             byte_at s j < 128 /\ f (byte_at s j) = true) ->
  i = 0%nat \/ (byte_at s (i - 1) < 128 /\ f (byte_at s (i - 1)) = false) ->
  fst (strings.lastIndexFunc s (strings.pure_pred f) false tt)
  = Z.of_nat i - 1.
Proof.
  intros Hi Hall Hpre. unfold strings.lastIndexFunc.
  pose proof (lastIndexFunc_from_skip s f (String.length s - i) i i) as Hskip.
  replace (String.length s - i + i)%nat with (String.length s) in Hskip by lia.
  replace (i + (String.length s - i))%nat with (String.length s) in Hskip
    by lia.
  rewrite Hskip; [|lia|intros j Hj; apply Hall; lia].
  destruct Hpre as [-> | [Hb Hf]]; [reflexivity|].
  destruct i as [|i]; [reflexivity|].
  cbn [strings.lastIndexFunc_from Nat.eqb].
  rewrite DecodeLastRuneInString_slice_ascii by (auto; lia).
  unfold strings.pure_pred at 1. rewrite Hf. cbn [Bool.eqb fst]. lia.
Qed.

(** [TrimRightFunc] on a string that ends in ASCII bytes satisfying [f],
    preceded by nothing or by an ASCII byte that fails [f]. *)
Lemma TrimRightFunc_ascii (s : string) (f : Z -> bool) (i : nat) :
  (i <= String.length s)%nat ->
  (forall j, (i <= j < String.length s)%nat ->
             byte_at s j < 128 /\ f (byte_at s j) = true) ->
  i = 0%nat \/ (byte_at s (i - 1) < 128 /\ f (byte_at s (i - 1)) = false) ->
  strings.TrimRightFunc s f = slice s 0 i.
Proof.
  intros Hi Hall Hpre. unfold strings.TrimRightFunc.
  rewrite (lastIndexFunc_ascii s f i Hi Hall Hpre).
  destruct Hpre as [-> | [Hb Hf]]; [reflexivity|].
  destruct i as [|i]; [reflexivity|].
  replace (Z.of_nat (S i) - 1) with (Z.of_nat i) by lia.
  replace (S i - 1)%nat with i in Hb by lia.
  rewrite Nat2Z.id.
  replace (0 <=? Z.of_nat i) with true by (symmetry; apply Z.leb_le; lia).
  unfold utf8.RuneSelf.
  replace (128 <=? byte_at s i) with false by (symmetry; apply Z.leb_gt; lia).
  cbn [andb]. f_equal. lia.
Qed.

Lemma byte_at_append_left (s t : string) (j : nat) :
  (j < String.length s)%nat -> byte_at (s +:+ t) j = byte_at s j.
Proof.
  revert j. induction s as [|c s IH]; intros j H; simpl in *; [lia|].
  destruct j as [|j]; [reflexivity|]. unfold byte_at in *. simpl.
  apply IH. lia.
Qed.

Lemma byte_at_append_right (s t : string) (j : nat) :
  byte_at (s +:+ t) (String.length s + j) = byte_at t j.
Proof. unfold byte_at. now rewrite get_append_right. Qed.

Lemma slice_append_left (s t : string) :
  slice (s +:+ t) 0 (String.length s) = s.
Proof.
  unfold slice. rewrite Nat.sub_0_r.
  induction s as [|c s IH]; simpl.
  - destruct t; reflexivity.
  - now rewrite IH.
Qed.

(** X6: for a message made of a body, empty or ending in an ASCII byte
    that is no white space, followed by any number of ASCII white space
    bytes, [SayTrimmed] writes the body and one newline. *)
Theorem SayTrimmed_strips_ascii_space (body ws : string) (w : World) :
  all_bytes unicode.IsSpace ws ->
  body = ""
  \/ (byte_at body (String.length body - 1) < 128
      /\ unicode.IsSpace (byte_at body (String.length body - 1)) = false) ->
  SayTrimmed (body +:+ ws) w = (Done tt, printed w [body +:+ newline]).
Proof.
  intros Hws Hbody. rewrite SayTrimmed_line. unfold trimmed_line.
  rewrite (TrimRightFunc_ascii _ _ (String.length body)).
  - now rewrite slice_append_left.
  - rewrite length_append. lia.
  - intros j Hj. rewrite length_append in Hj.
    replace j with (String.length body + (j - String.length body))%nat by lia.
    rewrite byte_at_append_right. apply Hws. lia.
  - destruct Hbody as [-> | Hb]; [now left|].
    destruct body as [|c body]; [now left|]. right.
    rewrite byte_at_append_left by (simpl; lia). exact Hb.
Qed.

Lemma SayTrimmed_strips_ascii_space_witness :
  SayTrimmed ("Hello, world" +:+ bytes [32; 9; 10; 32]) world0
  = (Done tt, printed world0 ["Hello, world" +:+ newline]).
Proof.
  apply (SayTrimmed_strips_ascii_space "Hello, world" (bytes [32; 9; 10; 32])
           world0).
  - intros j Hj. simpl in Hj.
    destruct j as [|[|[|[|j]]]]; [vm_compute; split; reflexivity ..|lia].
  - right. vm_compute. split; reflexivity.
Defined.

(** ** More on the suffix helpers *)

Lemma DecodeLastRuneInString_size (u : string) (r : Z) (size : nat) :
  String.length u <> 0%nat ->
  utf8.DecodeLastRuneInString u = (r, size) ->
  (1 <= size <= String.length u)%nat.
Proof.
  intros Hn Hd.
  destruct (DecodeLastRuneInString_cases u r size Hn Hd)
    as [(_ & _ & ->) | [(_ & start & Hs & Hsum & _) | (_ & _ & ->)]]; lia.
Qed.

Lemma slice_whole (s : string) : slice s 0 (String.length s) = s.
Proof.
  unfold slice. rewrite Nat.sub_0_r.
  induction s as [|c s IH]; simpl; [reflexivity | now rewrite IH].
Qed.

Lemma slice_from_zero (s : string) : slice_from s 0 = s.
Proof.
  pose proof (slice_whole s) as H. unfold slice in H. rewrite Nat.sub_0_r in H.
  unfold slice_from. now rewrite Nat.sub_0_r.
Qed.

Lemma slice_from_nonempty (s : string) (i : nat) :
  (i < String.length s)%nat -> slice_from s i <> "".
Proof.
  intros H. destruct (slice_from_cons s i H) as (c & _ & ->). discriminate.
Qed.

(** The index [lastIndexFunc] returns lies below the position it started
    from. *)
Lemma lastIndexFunc_from_range {St : Type} (s : string)
    (g : Z -> St -> bool * St) (truth : bool) :
  forall (fuel i : nat) (st : St),
    (i <= String.length s)%nat ->
    -1 <= fst (strings.lastIndexFunc_from fuel s i g truth st)
       <= Z.of_nat i - 1.
Proof.
  induction fuel as [|fuel IH]; intros i st Hi; simpl; [lia|].
  destruct (i =? 0)%nat eqn:E; [simpl; lia|]. apply Nat.eqb_neq in E.
  destruct (utf8.DecodeLastRuneInString (slice s 0 i)) as [r size] eqn:Hd.
  pose proof (DecodeLastRuneInString_size (slice s 0 i) r size) as Hsz.
  rewrite slice_prefix_length in Hsz by lia. specialize (Hsz E Hd).
  destruct (g r st) as [b st']. destruct (Bool.eqb b truth); simpl; [lia|].
  specialize (IH (i - size)%nat st'). lia.
Qed.

(** Once the callback of [stringSuffixIndexFunc] has seen a rune that
    satisfies [f], [hasSuffix] stays set. *)
Lemma hasSuffix_stays (s : string) (f : Z -> bool) :
  forall (fuel i : nat),
    snd (strings.lastIndexFunc_from fuel s i (suffix_callback f) true true)
    = true.
Proof.
  induction fuel as [|fuel IH]; intros i; simpl; [reflexivity|].
  destruct (i =? 0)%nat; [reflexivity|].
  destruct (utf8.DecodeLastRuneInString (slice s 0 i)) as [r size].
  unfold suffix_callback at 1. cbn [negb].
  destruct (Bool.eqb (negb (f r)) true); [reflexivity | apply IH].
Qed.

(** [stringSuffixIndexFunc] after the first call of its callback. *)
Lemma stringSuffixIndexFunc_first (s : string) (f : Z -> bool) (r : Z)
    (size : nat) :
  s <> "" ->
  utf8.DecodeLastRuneInString s = (r, size) ->
  stringSuffixIndexFunc s f
  = if f r then
      fst (strings.lastIndexFunc_from (String.length s - 1) s
             (String.length s - size) (suffix_callback f) true true) + 1
    else -1.
Proof.
  intros Hs Hd.
  unfold stringSuffixIndexFunc, strings.LastIndexFunc, strings.lastIndexFunc.
  destruct (String.length s) as [|n] eqn:Hn;
    [destruct s; [contradiction | discriminate Hn]|].
  cbn [strings.lastIndexFunc_from Nat.eqb].
  rewrite <- Hn, slice_whole, Hd, Hn.
  replace (S n - 1)%nat with n by lia.
  unfold suffix_callback at 1. destruct (f r); cbn [negb Bool.eqb].
  - pose proof (hasSuffix_stays s f n (S n - size)%nat) as Hstay.
    destruct (strings.lastIndexFunc_from n s (S n - size)
                (suffix_callback f) true true) as [k hs].
    simpl in Hstay. subst hs. reflexivity.
  - reflexivity.
Qed.

(** The two outcomes of [stringSuffixIndexFunc]: no suffix, when the string
    is empty or its last rune fails [f]; or an index below the length. *)
Lemma stringSuffixIndexFunc_cases (s : string) (f : Z -> bool) :
  ((s = "" \/ f (last_rune s) = false) /\ stringSuffixIndexFunc s f = -1)
  \/ (s <> "" /\ f (last_rune s) = true
      /\ 0 <= stringSuffixIndexFunc s f < Z.of_nat (String.length s)).
Proof.
  destruct s as [|c s]; [left; split; [now left | reflexivity]|].
  set (t := String c s).
  assert (Ht : t <> "") by discriminate.
  assert (Hlen : String.length t <> 0%nat) by (simpl; lia).
  unfold last_rune.
  destruct (utf8.DecodeLastRuneInString t) as [r size] eqn:Hd.
  pose proof (DecodeLastRuneInString_size t r size Hlen Hd) as Hsz.
  rewrite (stringSuffixIndexFunc_first t f r size Ht Hd). cbn [fst].
  destruct (f r) eqn:Hf.
  - right. split; [exact Ht|]. split; [reflexivity|].
    pose proof (lastIndexFunc_from_range t (suffix_callback f) true
                  (String.length t - 1) (String.length t - size)%nat true)
      as Hr.
    lia.
  - left. split; [now right | reflexivity].
Qed.

(** X1: [stringSuffixIndexFunc] returns -1 exactly when the string is
    empty or [f] fails on its last rune. *)
Theorem stringSuffixIndexFunc_no_suffix_iff (s : string) (f : Z -> bool) :
  stringSuffixIndexFunc s f = -1 <-> s = "" \/ f (last_rune s) = false.
Proof.
  destruct (stringSuffixIndexFunc_cases s f) as [[H ->] | (Hs & Hf & Hr)].
  - tauto.
  - split; [lia|]. intros [-> | Hf']; [contradiction | congruence].
Qed.

Lemma append_empty_r (s : string) : s +:+ "" = s.
Proof. induction s as [|c s IH]; simpl; [reflexivity | now rewrite IH]. Qed.

(** X3: what [stringSuffixFunc] returns is a suffix of [s]; it is empty
    exactly when [stringSuffixIndexFunc] returns -1, and otherwise the index
    is the length of the text before it. *)
Theorem stringSuffixFunc_is_suffix (s : string) (f : Z -> bool) :
  exists pre,
    s = pre +:+ stringSuffixFunc s f
    /\ (stringSuffixFunc s f = "" <-> stringSuffixIndexFunc s f = -1)
    /\ (stringSuffixIndexFunc s f <> -1 ->
        stringSuffixIndexFunc s f = Z.of_nat (String.length pre)).
Proof.
  unfold stringSuffixFunc.
  destruct (stringSuffixIndexFunc_cases s f) as [[_ H] | (Hs & _ & Hr)].
  - rewrite H. exists s. cbn. rewrite append_empty_r. tauto.
  - set (k := stringSuffixIndexFunc s f) in *.
    replace (0 <=? k) with true by (symmetry; apply Z.leb_le; lia).
    exists (slice s 0 (Z.to_nat k)). split; [|split].
    + rewrite <- (slice_from_zero s) at 1. apply slice_from_split; lia.
    + split; [|lia]. intros H.
      apply (slice_from_nonempty s (Z.to_nat k)) in H; [contradiction | lia].
    + intros _. rewrite slice_prefix_length by lia. lia.
Qed.

(** ** More on [SayTrimmed] *)

(** What [TrimRightFunc] returns is the text up to some position. *)
Lemma TrimRightFunc_prefix (s : string) (f : Z -> bool) :
  f utf8.RuneError = false ->
  exists j, (j <= String.length s)%nat
            /\ strings.TrimRightFunc s f = slice s 0 j.
Proof.
  intros Hf. unfold strings.TrimRightFunc, strings.lastIndexFunc.
  fold (trim_end s (fst (strings.lastIndexFunc_from (String.length s) s
          (String.length s) (strings.pure_pred f) false tt))).
  destruct (lastIndexFunc_from_trim f s Hf (String.length s) (String.length s))
    as [-> | (j & r & size & Hj & Hd & Hfr & ->)];
    [lia | apply boundary_length | |].
  - exists 0%nat. split; [lia | reflexivity].
  - exists j. rewrite Nat2Z.id. split; [lia | reflexivity].
Qed.

(** ** More on [List] *)

(** X8: in mode [Rows] the option is never looked at: whatever it is, every
    item is written on a line of its own, right-trimmed. *)
Theorem List_rows_any_option (l : list Any) (strs : list string) (opt : Any)
    (w : World) :
  texts l = Some strs ->
  List (SliceOf l) Rows opt w = (Done tt, printed w (map trimmed_line strs)).
Proof.
  intros Hl. unfold List, Rows.
  rewrite (bind_Done _ _ _ _ _ (item_strings_texts _ _ w Hl)).
  apply say_rows_lines.
Qed.

Lemma List_rows_any_option_witness :
  List (SliceOf [AString "a"; AStringer "bb  "; AString "ccc"]) Rows AOther
       world0
  = (Done tt, printed world0 ["a" +:+ newline; "bb" +:+ newline;
                              "ccc" +:+ newline]).
Proof.
  apply (List_rows_any_option [AString "a"; AStringer "bb  "; AString "ccc"]
           ["a"; "bb  "; "ccc"] AOther world0).
  reflexivity.
Defined.

(** X7: the items are checked before the mode and the option: a slice
    with an item that is neither a string nor a Stringer makes [List] panic
    with the error for that, whatever the mode (even an unknown one) and
    the option are; nothing has been written. *)
Theorem List_bad_items_abort (l : list Any) (mode : ListMode) (opt : Any)
    (w : World) :
  texts l = None ->
  List (SliceOf l) mode opt w
  = (Panicked (PanicError
       (os.NewError "List items contain non-string, non-Stringer item")), w).
Proof.
  intros Hl. unfold List.
  apply (bind_Panicked _ _ _ _ _ (item_strings_bad l w Hl)).
Qed.

Lemma List_bad_items_abort_witness :
  List (SliceOf [AString "a"; AInt 3; AStringer "c"]) 7%N (AInt 0) world0
  = (Panicked (PanicError
       (os.NewError "List items contain non-string, non-Stringer item")),
     world0).
Proof.
  apply (List_bad_items_abort [AString "a"; AInt 3; AStringer "c"] 7%N
           (AInt 0) world0).
  reflexivity.
Defined.

Lemma num_cols_width_zero (wrap : Z) : num_cols wrap 0 = int_wrap (wrap + 1).
Proof.
  unfold num_cols. change (int_wrap (0 + 1)) with 1. apply Z.quot_1_r.
Qed.

(** X9: for an empty slice, [List] in mode [Rows], and in the column modes
    with an option of an accepted type, returns and writes nothing. *)
Theorem List_empty_prints_nothing (mode : ListMode) (opt : Any) (w : World) :
  mode = Rows
  \/ ((mode = ColumnsAcross \/ mode = ColumnsDown)
      /\ wrap_option opt <> None) ->
  List (SliceOf []) mode opt w = (Done tt, w).
Proof.
  intros [-> | [Hm Ho]]; [reflexivity|].
  unfold List. rewrite (bind_Done _ _ _ _ _ (item_strings_texts [] [] w eq_refl)).
  assert (Hc : List_columns [] mode opt w = (Done tt, w)).
  { unfold List_columns.
    destruct (wrap_option opt) as [wrap|] eqn:Hw; [|contradiction].
    assert (Hb : forall k : Z -> M unit,
               bind (match opt with
                     | ANil => ret 80
                     | AInt z => ret z
                     | _ => panic (PanicError
                              (os.NewError "List option of unacceptable type"))
                     end) k w = k wrap w).
    { intros k. destruct opt; try discriminate; inversion Hw; reflexivity. }
    rewrite Hb. cbv zeta. change (max_width []) with 0.
    rewrite num_cols_width_zero.
    pose proof (int_wrap_range (wrap + 1)) as Hr.
    set (ncols := int_wrap (wrap + 1)) in *.
    destruct (ncols <=? 1) eqn:E; [reflexivity|]. apply Z.leb_gt in E.
    change (Z.of_nat (length [])) with 0. rewrite Z.add_0_l.
    rewrite (int_wrap_small ncols) by lia.
    rewrite (int_wrap_small (ncols - 1)) by lia.
    rewrite Z.quot_small by lia.
    destruct Hm as [-> | ->]; reflexivity. }
  destruct Hm as [-> | ->]; exact Hc.
Qed.

Lemma List_empty_prints_nothing_witness :
  List (SliceOf []) ColumnsDown (AInt 40) world0 = (Done tt, world0).
Proof.
  apply (List_empty_prints_nothing ColumnsDown (AInt 40) world0).
  right. split; [right; reflexivity | discriminate].
Defined.

(** The number of columns when nothing wraps around. *)
Lemma num_cols_in_range (wrap width : Z) :
  - 2 ^ 31 <= wrap < 2 ^ 31 - 1 -> 0 <= width < 2 ^ 31 - 1 ->
  num_cols wrap width = (wrap + 1) ÷ (width + 1).
Proof.
  intros Hw Hd. unfold num_cols.
  now rewrite !int_wrap_small by lia.
Qed.

Lemma num_cols_le_1 (wrap width : Z) :
  - 2 ^ 31 <= wrap < 2 ^ 31 - 1 -> 0 <= width < 2 ^ 31 - 1 ->
  num_cols wrap width <= 1 <-> wrap <= 2 * width.
Proof.
  intros Hw Hd. rewrite num_cols_in_range by lia.
  destruct (Z.lt_ge_cases (wrap + 1) 0) as [Hn | Hp].
  - split; [lia|]. intros _.
    assert ((wrap + 1) ÷ (width + 1) <= 0); [|lia].
    apply Z.quot_le_upper_bound; lia.
  - rewrite Z.quot_div_nonneg by lia. split; intros H.
    + destruct (Z.le_gt_cases wrap (2 * width)) as [|Hgt]; [assumption|].
      assert (2 <= (wrap + 1) / (width + 1)); [|lia].
      apply Z.div_le_lower_bound; lia.
    + assert ((wrap + 1) / (width + 1) < 2); [|lia].
      apply Z.div_lt_upper_bound; lia.
Qed.

Lemma max_width_from_ge (strs : list string) (a : Z) :
  a <= fold_left
         (fun width s => let n := len s in if n >? width then n else width)
         strs a.
Proof.
  revert a. induction strs as [|s strs IH]; intros a; simpl; [lia|].
  specialize (IH (if len s >? a then len s else a)). cbv zeta in *.
  destruct (Z.gtb_spec (len s) a); lia.
Qed.

Lemma max_width_nonneg (strs : list string) : 0 <= max_width strs.
Proof. apply max_width_from_ge. Qed.

(** X10: when the wrap width is at most twice the length of the longest
    item, the column modes write one right-trimmed item per line. *)
Theorem List_columns_rows_when_narrow (l : list Any) (strs : list string)
    (mode : ListMode) (opt : Any) (wrap : Z) (w : World) :
  texts l = Some strs ->
  mode = ColumnsAcross \/ mode = ColumnsDown ->
  wrap_option opt = Some wrap ->
  - 2 ^ 31 <= wrap < 2 ^ 31 - 1 ->
  max_width strs < 2 ^ 31 - 1 ->
  wrap <= 2 * max_width strs ->
  List (SliceOf l) mode opt w = (Done tt, printed w (map trimmed_line strs)).
Proof.
  intros Hl Hm Ho Hw Hd Hn. unfold List.
  rewrite (bind_Done _ _ _ _ _ (item_strings_texts _ _ w Hl)).
  pose proof (max_width_nonneg strs) as H0.
  rewrite <- (say_rows_lines strs w).
  assert (Hc : List_columns strs mode opt w = say_rows strs w).
  { apply (List_columns_narrow strs mode opt wrap w Ho).
    apply num_cols_le_1; lia. }
  destruct Hm as [-> | ->]; exact Hc.
Qed.

Lemma List_columns_rows_when_narrow_witness :
  List (SliceOf [AString "alpha"; AString "beta"]) ColumnsAcross (AInt 10)
       world0
  = (Done tt, printed world0 ["alpha" +:+ newline; "beta" +:+ newline]).
Proof.
  apply (List_columns_rows_when_narrow [AString "alpha"; AString "beta"]
           ["alpha"; "beta"] ColumnsAcross (AInt 10) 10 world0);
    [reflexivity | left; reflexivity | reflexivity | lia
     | vm_compute; reflexivity | vm_compute; discriminate].
Defined.

(** ** More on [Ask] *)

Section AskRounds.

Context `{QM : QuestionMethods}.

Lemma ReadLine_Line (s : string) (isPrefix : bool) (rest : list ReadResult)
    (w : World) :
  stdin w = Line s isPrefix :: rest ->
  ReadLine w = (Done (s, isPrefix, None), with_stdin rest w).
Proof. intros H. unfold ReadLine. now rewrite H. Qed.

Lemma read_response_pieces (pieces : list string) (last : string)
    (rest : list ReadResult) :
  forall (fuel : nat) (resp : string) (w : World),
    (length pieces < fuel)%nat ->
    stdin w = line_pieces pieces last ++ rest ->
    read_response fuel resp w
    = (Done (Some (resp +:+ fold_right String.append last pieces)),
       with_stdin rest w).
Proof.
  induction pieces as [|p pieces IH]; intros fuel resp w Hfuel Hin;
    (destruct fuel as [|fuel]; [simpl in Hfuel; lia|]);
    cbn [read_response].
  - rewrite (bind_Done _ _ _ _ _ (ReadLine_Line last false rest w Hin)).
    reflexivity.
  - rewrite (bind_Done _ _ _ _ _
               (ReadLine_Line p true (line_pieces pieces last ++ rest) w Hin)).
    cbv beta iota.
    rewrite (IH fuel (resp +:+ p)); [| simpl in Hfuel; lia | reflexivity].
    cbn [fold_right]. now rewrite append_assoc.
Qed.

(** X18: an answer that [ReadLine] hands out in pieces (all but the last
    one marked as prefix) is read as the pieces put together, and the input
    after it is left for later. *)
Theorem read_line_assembles (pieces : list string) (last : string)
    (rest : list ReadResult) (w : World) :
  stdin w = line_pieces pieces last ++ rest ->
  read_line w
  = (Done (Some (fold_right String.append last pieces)), with_stdin rest w).
Proof.
  intros Hin. unfold read_line, rounds.
  rewrite (read_response_pieces pieces last rest _ "" w); [reflexivity| |exact Hin].
  rewrite Hin. unfold line_pieces. rewrite !length_app, length_map. simpl. lia.
Qed.

(** X17: when [tryFirstAnswer] resolves to a value, the body of [Ask] does
    nothing but call [setDest] for it: no prompt is written and no input is
    read, the destination is as [setDest] leaves it, and the body ends
    normally unless [setDest] reports an error that [panicUnrecoverable]
    stops, which is raised.  When [setDest] succeeds, [Ask] returns nil. *)
Theorem Ask_first_answer (t : PtrTarget) (msg : string)
    (config : option (Question -> Question)) (w : World) (v new : Value)
    (err : option Error) :
  let q := ask_question t msg config in
  tryFirstAnswer q = (Some v, None) ->
  setDest (set_val (Some v) q) t (mem w) = (new, err) ->
  ask_answer q t msg w
  = (match err with
     | None => Done tt
     | Some e => if IsRecoverable e then Done tt else Panicked (PanicError e)
     end, with_mem new w)
  /\ (err = None -> Ask (PtrTo t) msg config w = (Done None, with_mem new w)).
Proof.
  intros q Hf Hs.
  assert (Hbody : ask_answer q t msg w
                  = (match err with
                     | None => Done tt
                     | Some e => if IsRecoverable e then Done tt
                                 else Panicked (PanicError e)
                     end, with_mem new w)).
  { unfold ask_answer. rewrite Hf. cbn [q_val set_val].
    unfold bind at 1, get_mem. rewrite Hs.
    unfold bind at 1, set_mem. fold (with_mem new w).
    destruct err as [e|]; [|reflexivity].
    unfold panicUnrecoverable. destruct (IsRecoverable e); reflexivity. }
  split; [exact Hbody|].
  intros ->. unfold Ask, ask_deferred. fold q. rewrite Hbody. reflexivity.
Qed.


(** X20: a round of the prompt loop whose answer does not parse ends [Ask]
    with a panic if [panicUnrecoverable] stops the error; otherwise it writes
    "Error: " and the text of the error, and the next round prompts with the
    "on error" response of the question. *)
Theorem ask_loop_parse_error (fuel : nat) (q : Question) (dest : PtrTarget)
    (prompt resp : string) (w w2 : World) (val : option Value)
    (err : Error) :
  read_line (printed w [prompt_text q prompt]) = (Done (Some resp), w2) ->
  parse q resp = (val, Some err) ->
  ask_loop (S fuel) q dest prompt w
  = if IsRecoverable err then
      ask_loop fuel (set_val val q) dest (q_Responses q AskOnError)
        (printed w2 [say_text ("Error: " +:+ Error_String err +:+ newline)])
    else (Panicked (PanicError err), w2).
Proof.
  intros Hr Hp. simpl. unfold bind at 1. rewrite Say_printed.
  unfold bind at 1. fold (prompt_text q prompt). rewrite Hr, Hp.
  unfold bind at 1, panicUnrecoverable.
  destruct (IsRecoverable err); [|reflexivity].
  unfold ret at 1. unfold bind at 1, contFunc. rewrite Say_printed.
  reflexivity.
Qed.

(** X21: a round of the prompt loop whose answer parses and fits the
    destination writes the prompt, takes the answer from the input, stores
    the value and ends the loop. *)
Theorem ask_loop_answer (fuel : nat) (q : Question) (dest : PtrTarget)
    (prompt : string) (w : World) (pieces : list string) (last : string)
    (rest : list ReadResult) (val : option Value) (new : Value) :
  stdin w = line_pieces pieces last ++ rest ->
  parse q (fold_right String.append last pieces) = (val, None) ->
  setDest (set_val val q) dest (mem w) = (new, None) ->
  ask_loop (S fuel) q dest prompt w
  = (Done tt,
     with_mem new (with_stdin rest (printed w [prompt_text q prompt]))).
Proof.
  intros Hin Hp Hs. simpl. unfold bind at 1. rewrite Say_printed.
  unfold bind at 1. fold (prompt_text q prompt).
  assert (Hr : read_line (printed w [prompt_text q prompt])
               = (Done (Some (fold_right String.append last pieces)),
                  with_stdin rest (printed w [prompt_text q prompt]))).
  { unfold read_line, rounds.
    rewrite (read_response_pieces pieces last rest _ "" _);
      [reflexivity | | exact Hin].
    cbn [stdin printed]. rewrite Hin. unfold line_pieces.
    rewrite !length_app, length_map. simpl. lia. }
  rewrite Hr.
  rewrite Hp. unfold bind at 1, get_mem.
  change (mem (with_stdin rest (printed w [prompt_text q prompt])))
    with (mem w).
  rewrite Hs. reflexivity.
Qed.

(** X16: for a destination that is a slice or anything else that is no
    pointer, [Ask] neither returns an error nor calls a failure callback: the
    question is still nil when the deferred function looks for the callback,
    and the call ends in the panic of the run time for that; nothing has been
    written. *)
Theorem Ask_not_a_pointer (msg : string)
    (config : option (Question -> Question)) (w : World) (kind : string) :
  Ask SliceDest msg config w
  = (Panicked (PanicError (runtimeError
       "invalid memory address or nil pointer dereference")), w)
  /\ Ask (OtherDest kind) msg config w
     = (Panicked (PanicError (runtimeError
          "invalid memory address or nil pointer dereference")), w).
Proof. split; reflexivity. Qed.

(** ** More on [Confirm] *)

Lemma Confirm_run (question : string) (yes : bool)
    (config : option (Question -> Question)) (w : World) :
  Confirm question yes config w
  = (Ask (PtrTo T_string) question
         (Some (confirm_config (if yes then "yes" else "no") config)) >>
     let* err := get_confirm_err in
     match err with
     | Some _ => ret false
     | None =>
       let* okstr := get_mem in
       match string_of okstr with
       | EmptyString => panic (PanicError (runtimeError "index out of range"))
       | String c _ => ret (Ascii.eqb c "y")
       end
     end) (confirm_start w).
Proof. reflexivity. Qed.

(** X23: when the call of [Ask] inside [Confirm] stores an answer that is
    not empty, [Confirm] returns whether its first byte is 'y'. *)
Theorem Confirm_answer (question : string) (yes : bool)
    (config : option (Question -> Question)) (w w1 : World) (c : ascii)
    (rest : string) :
  ask_answer (confirm_question question yes config) T_string question
             (confirm_start w) = (Done tt, w1) ->
  mem w1 = VString (String c rest) ->
  Confirm question yes config w = (Done (Ascii.eqb c "y"), w1).
Proof.
  intros Hbody Hmem.
  assert (Herr : confirm_err w1 = None).
  { pose proof (quiet_ask_answer (confirm_question question yes config)
                  T_string question (confirm_start w)) as Hk.
    rewrite Hbody in Hk. exact Hk. }
  rewrite Confirm_run. unfold bind at 1, Ask, ask_deferred.
  fold (confirm_question question yes config). rewrite Hbody.
  unfold bind at 1, get_confirm_err. rewrite Herr.
  unfold bind at 1, get_mem. rewrite Hmem. reflexivity.
Qed.

(** X24: when the call of [Ask] inside [Confirm] succeeds with the empty
    answer, [Confirm] panics on [okstr[0]]. *)
Theorem Confirm_empty_answer_panics (question : string) (yes : bool)
    (config : option (Question -> Question)) (w w1 : World) :
  ask_answer (confirm_question question yes config) T_string question
             (confirm_start w) = (Done tt, w1) ->
  mem w1 = VString "" ->
  Confirm question yes config w
  = (Panicked (PanicError (runtimeError "index out of range")), w1).
Proof.
  intros Hbody Hmem.
  assert (Herr : confirm_err w1 = None).
  { pose proof (quiet_ask_answer (confirm_question question yes config)
                  T_string question (confirm_start w)) as Hk.
    rewrite Hbody in Hk. exact Hk. }
  rewrite Confirm_run. unfold bind at 1, Ask, ask_deferred.
  fold (confirm_question question yes config). rewrite Hbody.
  unfold bind at 1, get_confirm_err. rewrite Herr.
  unfold bind at 1, get_mem. rewrite Hmem. reflexivity.
Qed.

(** X25: when [Ask] fails inside [Confirm] and the configured question
    has a failure callback, the callback is called with the error, after the
    error has been noted, and [Confirm] returns false. *)
Theorem Confirm_failure_with_callback (question : string) (yes : bool)
    (config : option (Question -> Question)) (w w1 : World) (err : Error)
    (f : PanicFunc) :
  ask_answer (confirm_question question yes config) T_string question
             (confirm_start w)
  = (Panicked (PanicError err), w1) ->
  q_Panic (confirm_question question yes config) = Some (ConfirmFunc f) ->
  exists w2,
    call_Panic f err
      (mkWorld (stdout w1) (stdin w1) (mem w1) (Some err) (notified w1))
    = (Done tt, w2)
    /\ Confirm question yes config w = (Done false, w2).
Proof.
  intros Hbody Hq.
  destruct (call_Panic_Done f err
              (mkWorld (stdout w1) (stdin w1) (mem w1) (Some err)
                       (notified w1))) as (w2 & Hc & _ & _ & Herr).
  exists w2. split; [exact Hc|].
  rewrite Confirm_run. unfold bind at 1, Ask, ask_deferred.
  fold (confirm_question question yes config). rewrite Hbody, Hq.
  cbn [call_Panic]. unfold bind at 1. unfold bind at 1, set_confirm_err.
  rewrite Hc. unfold ret at 1.
  unfold bind at 1, get_confirm_err. rewrite (Herr eq_refl). reflexivity.
Qed.

End AskRounds.

(** ** More runs of the prompting functions *)

Section MoreRuns.

Import SpecQuestion.

(** An answer that arrives in three pieces. *)
Lemma read_line_assembles_witness :
  read_line (world_in [Line "Hel" true; Line "lo, wo" true; Line "rld" false;
                       Line "next" false])
  = (Done (Some "Hello, world"),
     with_stdin [Line "next" false]
       (world_in [Line "Hel" true; Line "lo, wo" true; Line "rld" false;
                  Line "next" false])).
Proof.
  apply (read_line_assembles ["Hel"; "lo, wo"] "rld" [Line "next" false]).
  reflexivity.
Defined.

(** The first answer 42 for a uint8: it is stored, nothing is printed and
    the pending line is not read. *)
Lemma Ask_first_answer_witness :
  ask_answer (ask_question T_uint8 "Age? "
                (Some (set_FirstAnswer (Some "42"))))
             T_uint8 "Age? " (mkWorld [] [Line "5" false] (VUint 0) None [])
  = (Done tt, mkWorld [] [Line "5" false] (VUint 42) None [])
  /\ Ask (PtrTo T_uint8) "Age? " (Some (set_FirstAnswer (Some "42")))
         (mkWorld [] [Line "5" false] (VUint 0) None [])
     = (Done None, mkWorld [] [Line "5" false] (VUint 42) None []).
Proof.
  pose proof (Ask_first_answer T_uint8 "Age? "
                (Some (set_FirstAnswer (Some "42")))
                (mkWorld [] [Line "5" false] (VUint 0) None [])
                (VUint 42) (VUint 42) None) as H.
  cbv zeta in H.
  destruct H as [Hbody HAsk]; [vm_compute; reflexivity ..|].
  split; [exact Hbody | exact (HAsk eq_refl)].
Defined.


(** The answer "maybe" to a yes/no question. *)
Lemma ask_loop_parse_error_witness :
  let q := confirm_question "Continue? " true None in
  ask_loop 2 q T_string "Continue? "
    (world_in [Line "maybe" false; Line "y" false])
  = ask_loop 1 q T_string (q_Responses q AskOnError)
      (mkWorld ["Continue? |yes| ";
                "Error: answer is not in the accepted set" +:+ newline]
               [Line "y" false] (VString "") None []).
Proof.
  refine (ask_loop_parse_error 1 (confirm_question "Continue? " true None)
            T_string "Continue? " "maybe"
            (world_in [Line "maybe" false; Line "y" false])
            (mkWorld ["Continue? |yes| "] [Line "y" false] (VString "") None [])
            None ConstraintError _ _);
    vm_compute; reflexivity.
Defined.

(** A name that arrives in two pieces. *)
Lemma ask_loop_answer_witness :
  ask_loop 1 (ask_question T_string "Name? " None) T_string "Name? "
    (world_in [Line "Ad" true; Line "a" false; Line "x" false])
  = (Done tt, mkWorld ["Name? "] [Line "x" false] (VString "Ada") None []).
Proof.
  refine (ask_loop_answer 0 (ask_question T_string "Name? " None) T_string
            "Name? "
            (world_in [Line "Ad" true; Line "a" false; Line "x" false])
            ["Ad"] "a" [Line "x" false] (Some (VString "Ada")) (VString "Ada")
            _ _ _);
    reflexivity.
Defined.

(** The answer "y". *)
Lemma Confirm_answer_witness :
  Confirm "Continue? " false None (world_in [Line "y" false])
  = (Done true, mkWorld ["Continue? |no| "] [] (VString "y") None []).
Proof.
  apply (Confirm_answer "Continue? " false None (world_in [Line "y" false])
           (mkWorld ["Continue? |no| "] [] (VString "y") None []) "y" "");
    vm_compute; reflexivity.
Defined.

(** An empty line, with a configuration that takes away the default and
    the set of answers. *)
Lemma Confirm_empty_answer_panics_witness :
  Confirm "Continue? " false (Some (fun q => In [] (set_Default None q)))
          (world_in [Line "" false])
  = (Panicked (PanicError (runtimeError "index out of range")),
     mkWorld ["Continue? "] [] (VString "") None []).
Proof.
  apply (Confirm_empty_answer_panics "Continue? " false
           (Some (fun q => In [] (set_Default None q)))
           (world_in [Line "" false])
           (mkWorld ["Continue? "] [] (VString "") None []));
    vm_compute; reflexivity.
Defined.

(** The end of the input, with a callback named "log". *)
Lemma Confirm_failure_with_callback_witness :
  exists w2,
    call_Panic (CallerFunc "log") os.EOF
      (mkWorld ["Continue? |yes| "] [] (VString "") (Some os.EOF) [])
    = (Done tt, w2)
    /\ Confirm "Continue? " true (Some (set_Panic (Some (CallerFunc "log"))))
               (world_in [])
       = (Done false, w2).
Proof.
  apply (Confirm_failure_with_callback "Continue? " true
           (Some (set_Panic (Some (CallerFunc "log")))) (world_in [])
           (mkWorld ["Continue? |yes| "] [] (VString "") None []) os.EOF
           (CallerFunc "log"));
    vm_compute; reflexivity.
Defined.

End MoreRuns.

(** ** [ColumnsAcross] *)

Lemma chunks_nil {A} (fuel k : nat) : @chunks A fuel k [] = [].
Proof. destruct fuel; reflexivity. Qed.

Lemma chunks_concat {A} (k : nat) :
  forall (fuel : nat) (l : list A),
    (0 < k)%nat -> (length l <= fuel)%nat -> concat (chunks fuel k l) = l.
Proof.
  induction fuel as [|fuel IH]; intros l Hk Hl.
  - destruct l; [reflexivity | simpl in Hl; lia].
  - destruct l as [|a l]; [reflexivity|].
    cbn [chunks concat]. rewrite IH; [apply take_drop | exact Hk |].
    rewrite length_drop. simpl in *. lia.
Qed.

(** Every piece has between one and [k] elements, and a piece that is
    followed by another has [k]. *)
Lemma chunks_lengths {A} (k : nat) :
  forall (fuel : nat) (l : list A),
    (0 < k)%nat ->
    Forall (fun row => (0 < length row <= k)%nat) (chunks fuel k l)
    /\ forall i row, chunks fuel k l !! i = Some row ->
                     (S i < length (chunks fuel k l))%nat ->
                     length row = k.
Proof.
  induction fuel as [|fuel IH]; intros l Hk.
  - split; [constructor | intros i row H; discriminate H].
  - destruct l as [|a l]; [split; [constructor | intros i row H; discriminate H]|].
    cbn [chunks]. destruct (IH (drop k (a :: l)) Hk) as [IH1 IH2]. split.
    + constructor; [|exact IH1]. rewrite length_take. simpl. lia.
    + intros [|i] row Hrow Hlen; simpl in Hrow, Hlen.
      * inversion Hrow; subst. rewrite length_take.
        destruct (chunks fuel k (drop k (a :: l))) as [|r rs] eqn:E;
          [simpl in Hlen; lia|].
        destruct fuel as [|fuel']; [discriminate E|].
        cbn [chunks] in E.
        destruct (drop k (a :: l)) as [|b l'] eqn:Hd; [discriminate E|].
        assert (Hl : (length (drop k (a :: l)) > 0)%nat)
          by (rewrite Hd; simpl; lia).
        rewrite length_drop in Hl. lia.
      * apply (IH2 i row Hrow). lia.
Qed.

Lemma slice_strs_take (strs : list string) (i j : nat) (w : World) :
  (i <= j)%nat -> (j <= length strs)%nat ->
  slice_strs strs (Z.of_nat i) (Z.of_nat j) w
  = (Done (take (j - i) (drop i strs)), w).
Proof.
  intros Hi Hj. unfold slice_strs.
  replace (Z.of_nat i <? 0) with false by (symmetry; apply Z.ltb_ge; lia).
  replace (Z.of_nat j <? Z.of_nat i) with false
    by (symmetry; apply Z.ltb_ge; lia).
  replace (Z.of_nat (length strs) <? Z.of_nat j) with false
    by (symmetry; apply Z.ltb_ge; lia).
  cbn [orb]. rewrite Nat2Z.id.
  replace (Z.to_nat (Z.of_nat j - Z.of_nat i)) with (j - i)%nat by lia.
  reflexivity.
Qed.

Lemma across_loop_chunks (strs : list string) (k : nat) :
  (0 < k)%nat ->
  Z.of_nat (length strs) + Z.of_nat k < 2 ^ 31 ->
  forall (fuel i : nat) (w : World),
    (length strs - i <= fuel)%nat ->
    across_loop fuel strs (Z.of_nat (length strs)) (Z.of_nat k) (Z.of_nat i) w
    = (Done tt, printed w (map row_line (chunks fuel k (drop i strs)))).
Proof.
  intros Hk Hn. induction fuel as [|fuel IH]; intros i w Hfuel.
  - simpl. replace (Z.of_nat i <? Z.of_nat (length strs)) with false
      by (symmetry; apply Z.ltb_ge; lia).
    now rewrite printed_nil.
  - cbn [across_loop].
    destruct (Z.of_nat i <? Z.of_nat (length strs)) eqn:E.
    + apply Z.ltb_lt in E.
      rewrite (int_wrap_small (Z.of_nat i + Z.of_nat k)) by lia.
      assert (Hrow :
        slice_strs strs (Z.of_nat i)
          (if Z.of_nat i + Z.of_nat k >? Z.of_nat (length strs)
           then Z.of_nat (length strs) else Z.of_nat i + Z.of_nat k) w
        = (Done (take k (drop i strs)), w)).
      { destruct (Z.gtb_spec (Z.of_nat i + Z.of_nat k)
                             (Z.of_nat (length strs))) as [Hgt | Hle].
        - rewrite (slice_strs_take strs i (length strs)) by lia.
          rewrite !take_ge by (rewrite length_drop; lia). reflexivity.
        - replace (Z.of_nat i + Z.of_nat k) with (Z.of_nat (i + k)) by lia.
          rewrite (slice_strs_take strs i (i + k)) by lia.
          do 3 f_equal. lia. }
      rewrite (bind_Done _ _ _ _ _ Hrow).
      rewrite (bind_Done _ _ _ _ _ (SayTrimmed_line _ w)).
      replace (Z.of_nat i + Z.of_nat k) with (Z.of_nat (i + k)) by lia.
      rewrite IH by lia.
      destruct (drop i strs) as [|a rest] eqn:Hd.
      { assert (Hl : length (drop i strs) = 0%nat) by now rewrite Hd.
        rewrite length_drop in Hl. lia. }
      cbn [chunks map]. rewrite <- Hd, drop_drop, printed_app.
      reflexivity.
    + apply Z.ltb_ge in E. rewrite drop_ge by lia.
      rewrite chunks_nil. now rewrite printed_nil.
Qed.

Lemma List_columns_across_run (l : list Any) (strs : list string)
    (opt : Any) (wrap : Z) (w : World) :
  texts l = Some strs ->
  wrap_option opt = Some wrap ->
  2 <= num_cols wrap (max_width strs) ->
  Z.of_nat (length strs) + num_cols wrap (max_width strs) < 2 ^ 31 ->
  List (SliceOf l) ColumnsAcross opt w
  = (Done tt,
     printed w (map row_line
                    (chunks (length strs)
                            (Z.to_nat (num_cols wrap (max_width strs)))
                            (map (Sprintf_pad (max_width strs)) strs)))).
Proof.
  intros Hl Ho Hc Hn.
  set (width := max_width strs) in *. set (ncols := num_cols wrap width) in *.
  set (k := Z.to_nat ncols).
  set (padded := map (Sprintf_pad width) strs).
  assert (Hlen : length padded = length strs) by apply length_map.
  unfold List.
  rewrite (bind_Done _ _ _ _ _ (item_strings_texts _ _ w Hl)).
  unfold ColumnsAcross, List_columns.
  assert (Hb : forall k0 : Z -> M unit,
             bind (match opt with
                   | ANil => ret 80
                   | AInt z => ret z
                   | _ => panic (PanicError
                            (os.NewError "List option of unacceptable type"))
                   end) k0 w = k0 wrap w).
  { intros k0. destruct opt; try discriminate; inversion Ho; reflexivity. }
  rewrite Hb. cbv zeta. fold width. fold ncols.
  replace (ncols <=? 1) with false by (symmetry; apply Z.leb_gt; lia).
  fold padded.
  pose proof (across_loop_chunks padded k) as Hloop.
  rewrite Hlen in Hloop. replace (Z.of_nat k) with ncols in Hloop by lia.
  specialize (Hloop ltac:(lia) Hn (length padded) 0%nat w ltac:(lia)).
  rewrite drop_0, Hlen in Hloop. rewrite Hlen. exact Hloop.
Qed.

(** X12: with two or more columns, [ColumnsAcross] writes the padded items
    in order, [ncols] to a row (the last row may have fewer, no row is
    empty), every row joined with single blanks and right-trimmed. *)
Theorem List_columns_across_rows (l : list Any) (strs : list string)
    (opt : Any) (wrap : Z) (w : World) :
  texts l = Some strs ->
  wrap_option opt = Some wrap ->
  let width := max_width strs in
  let ncols := num_cols wrap width in
  2 <= ncols ->
  Z.of_nat (length strs) + ncols < 2 ^ 31 ->
  exists rows,
    List (SliceOf l) ColumnsAcross opt w
    = (Done tt, printed w (map row_line rows))
    /\ concat rows = map (Sprintf_pad width) strs
    /\ Forall (fun row => 0 < Z.of_nat (length row) <= ncols) rows
    /\ (forall i row, rows !! i = Some row -> (S i < length rows)%nat ->
                      Z.of_nat (length row) = ncols).
Proof.
  intros Hl Ho width ncols Hc Hn.
  set (k := Z.to_nat ncols).
  set (padded := map (Sprintf_pad width) strs).
  assert (Hlen : length padded = length strs) by apply length_map.
  exists (chunks (length strs) k padded).
  destruct (chunks_lengths k (length strs) padded) as [Hall Hfull]; [lia|].
  split; [|split; [|split]].
  - now apply List_columns_across_run.
  - apply chunks_concat; lia.
  - eapply Forall_impl; [exact Hall|]. intros row Hrow. simpl in Hrow. lia.
  - intros i row Hrow Hi. rewrite (Hfull i row Hrow Hi). lia.
Qed.

Lemma List_columns_across_rows_witness :
  exists rows,
    List (SliceOf [AString "ab"; AString "c"; AString "def"; AString "g";
                   AString "hi"])
         ColumnsAcross (AInt 11) world0
    = (Done tt, printed world0 (map row_line rows))
    /\ concat rows = map (Sprintf_pad 3) ["ab"; "c"; "def"; "g"; "hi"]
    /\ Forall (fun row => 0 < Z.of_nat (length row) <= 3) rows
    /\ (forall i row, rows !! i = Some row -> (S i < length rows)%nat ->
                      Z.of_nat (length row) = 3).
Proof.
  refine (List_columns_across_rows
            [AString "ab"; AString "c"; AString "def"; AString "g";
             AString "hi"]
            ["ab"; "c"; "def"; "g"; "hi"] (AInt 11) 11 world0 _ _ _ _);
    [reflexivity | reflexivity | vm_compute; discriminate
     | vm_compute; reflexivity].
Defined.

(** ** [ColumnsDown] *)

Lemma omap_none {A B} (f : A -> option B) (l : list A) :
  Forall (fun x => f x = None) l -> omap f l = [].
Proof.
  induction 1 as [|x l Hx _ IH]; [reflexivity|].
  simpl. rewrite Hx. exact IH.
Qed.

Lemma omap_length_le {A B} (f : A -> option B) (l : list A) :
  (length (omap f l) <= length l)%nat.
Proof.
  unfold omap. induction l as [|x l IH]; [reflexivity|]. simpl.
  destruct (f x); simpl; lia.
Qed.

Lemma omap_seq_lookup {B} (f : nat -> option B) :
  (forall j, f j = None -> f (S j) = None) ->
  forall (c a j : nat),
    omap f (seq a c) !! j = if (j <? c)%nat then f (a + j)%nat else None.
Proof.
  intros Hmono.
  assert (Hlater : forall a d, f a = None -> f (a + d)%nat = None).
  { intros a d Ha. induction d as [|d IH].
    - now rewrite Nat.add_0_r.
    - rewrite Nat.add_succ_r. now apply Hmono. }
  induction c as [|c IH]; intros a j.
  - simpl. now destruct j.
  - cbn [seq]. simpl omap. destruct (f a) as [x|] eqn:Ha.
    + destruct j as [|j].
      * simpl. now rewrite Nat.add_0_r, Ha.
      * simpl lookup. rewrite IH.
        change (S j <? S c)%nat with (j <? c)%nat.
        now rewrite Nat.add_succ_r.
    + rewrite omap_none.
      * destruct (S j <? S c)%nat; destruct (j <? S c)%nat;
          try rewrite Hlater by exact Ha; now destruct j.
      * apply Forall_forall. intros x Hx. apply elem_of_seq in Hx.
        replace x with (a + (x - a))%nat by lia. now apply Hlater.
Qed.

Lemma down_items_lookup (strs : list string) (nrows ncols i j : nat) :
  (length strs <= nrows * ncols)%nat -> (i < nrows)%nat ->
  down_items strs nrows ncols i !! j = strs !! (j * nrows + i)%nat.
Proof.
  intros Hn Hi. unfold down_items. rewrite omap_seq_lookup.
  - simpl. destruct (Nat.ltb_spec j ncols) as [Hj | Hj]; [reflexivity|].
    symmetry. apply lookup_ge_None. nia.
  - intros k Hk. apply lookup_ge_None in Hk. apply lookup_ge_None.
    simpl. lia.
Qed.

Lemma down_items_length (strs : list string) (nrows ncols i : nat) :
  (length (down_items strs nrows ncols i) <= ncols)%nat.
Proof.
  unfold down_items.
  etransitivity; [apply omap_length_le|]. now rewrite length_seq.
Qed.

(** The inner loop collects [down_items]. *)
Lemma down_row_items (strs : list string) (r c i : nat) :
  (i < r)%nat ->
  Z.of_nat (length strs) + Z.of_nat r < 2 ^ 31 ->
  Z.of_nat c < 2 ^ 31 ->
  forall (fuel j : nat) (row : list string) (w : World),
    (length strs < j + fuel)%nat ->
    (j = 0%nat \/ ((j - 1) * r + i < length strs)%nat) ->
    down_row fuel strs (Z.of_nat (length strs)) (Z.of_nat r) (Z.of_nat c)
             (Z.of_nat i) (Z.of_nat j) row w
    = (Done (row ++ omap (fun j' => strs !! (j' * r + i)%nat)
                         (seq j (c - j))), w).
Proof.
  intros Hi Hn Hc. induction fuel as [|fuel IH]; intros j row w Hfuel Hprev.
  - exfalso. destruct Hprev as [-> | Hprev]; [lia | nia].
  - cbn [down_row]. destruct (Z.ltb_spec (Z.of_nat j) (Z.of_nat c)) as [Hj | Hj].
    + assert (Hidx : (j * r + i < length strs + r)%nat)
        by (destruct Hprev as [-> | Hprev]; nia).
      rewrite (int_wrap_small (Z.of_nat j * Z.of_nat r)) by nia.
      rewrite (int_wrap_small (Z.of_nat j * Z.of_nat r + Z.of_nat i)) by nia.
      replace (Z.of_nat j * Z.of_nat r + Z.of_nat i)
        with (Z.of_nat (j * r + i)) by lia.
      cbv zeta.
      replace (c - j)%nat with (S (c - S j)) by lia. cbn [seq].
      destruct (Z.geb_spec (Z.of_nat (j * r + i)) (Z.of_nat (length strs)))
        as [Hge | Hlt].
      * rewrite omap_none; [now rewrite app_nil_r|].
        constructor; [apply lookup_ge_None; lia|].
        apply Forall_forall. intros x Hx. apply elem_of_seq in Hx.
        apply lookup_ge_None. nia.
      * destruct (strs !! (j * r + i)%nat) as [s|] eqn:Hs;
          [|apply lookup_ge_None in Hs; lia].
        rewrite (bind_Done _ _ _ _ _ (index_strs_lookup _ _ _ w Hs)).
        rewrite (int_wrap_small (Z.of_nat j + 1)) by lia.
        replace (Z.of_nat j + 1) with (Z.of_nat (S j)) by lia.
        rewrite IH; [| lia | right; replace (S j - 1)%nat with j by lia; lia].
        simpl omap. rewrite Hs. now rewrite <- app_assoc.
    + replace (c - j)%nat with 0%nat by lia. simpl. now rewrite app_nil_r.
Qed.

Lemma down_loop_rows (strs : list string) (r c : nat) :
  Z.of_nat (length strs) + Z.of_nat r < 2 ^ 31 ->
  Z.of_nat c < 2 ^ 31 ->
  forall (fuel i : nat) (w : World),
    (r - i <= fuel)%nat ->
    down_loop fuel strs (Z.of_nat (length strs)) (Z.of_nat r) (Z.of_nat c)
              (Z.of_nat i) w
    = (Done tt,
       printed w (map row_line (map (down_items strs r c) (seq i (r - i))))).
Proof.
  intros Hn Hc. induction fuel as [|fuel IH]; intros i w Hfuel.
  - simpl. replace (Z.of_nat i <? Z.of_nat r) with false
      by (symmetry; apply Z.ltb_ge; lia).
    replace (r - i)%nat with 0%nat by lia. now rewrite printed_nil.
  - cbn [down_loop]. destruct (Z.ltb_spec (Z.of_nat i) (Z.of_nat r)) as [Hi | Hi].
    + pose proof (down_row_items strs r c i ltac:(lia) Hn Hc
                    (S (length strs)) 0%nat [] w ltac:(lia) (or_introl eq_refl))
        as Hrow.
      change (Z.of_nat 0) with 0 in Hrow. rewrite Nat.sub_0_r in Hrow.
      cbn [app] in Hrow.
      rewrite (bind_Done _ _ _ _ _ Hrow).
      rewrite (bind_Done _ _ _ _ _ (SayTrimmed_line _ w)).
      rewrite (int_wrap_small (Z.of_nat i + 1)) by lia.
      replace (Z.of_nat i + 1) with (Z.of_nat (S i)) by lia.
      rewrite IH by lia.
      replace (r - i)%nat with (S (r - S i)) by lia.
      cbn [seq map]. rewrite printed_app. reflexivity.
    + replace (r - i)%nat with 0%nat by lia. now rewrite printed_nil.
Qed.

(** The indices [ColumnsDown] visits: row by row, column by column. *)
Lemma omap_concat_map {A B C} (g : B -> option C) (h : A -> list B)
    (l : list A) :
  concat (map (fun a => omap g (h a)) l) = omap g (concat (map h l)).
Proof.
  induction l as [|a l IH]; [reflexivity|].
  simpl. now rewrite omap_app, IH.
Qed.

Lemma omap_map {A B C} (g : B -> option C) (h : A -> B) (l : list A) :
  omap g (map h l) = omap (fun a => g (h a)) l.
Proof.
  unfold omap. induction l as [|a l IH]; [reflexivity|].
  simpl. now rewrite IH.
Qed.

Lemma omap_lookup_seq {A} (l : list A) :
  omap (fun k => l !! k) (seq 0 (length l)) = l.
Proof.
  induction l as [|x l IH]; [reflexivity|].
  cbn [length seq]. simpl omap. f_equal.
  rewrite <- fmap_S_seq.
  change (omap (fun k => (x :: l) !! k) (map S (seq 0 (length l))) = l).
  rewrite omap_map. exact IH.
Qed.

Lemma concat_map_bind {A B} (f : A -> list B) (l : list A) :
  concat (map f l) = l ≫= f.
Proof.
  induction l as [|a l IH]; [reflexivity|].
  simpl. now rewrite IH.
Qed.

Lemma down_indices_perm (n r c : nat) :
  (n <= r * c)%nat ->
  filter (fun k => (k < n)%nat)
         (concat (map (fun i => map (fun j => (j * r + i)%nat) (seq 0 c))
                      (seq 0 r)))
  ≡ₚ seq 0 n.
Proof.
  intros Hn. rewrite concat_map_bind. apply NoDup_Permutation.
  - apply NoDup_filter.
    apply NoDup_bind.
    + intros i1 i2 k H1 H2 Hk1 Hk2.
      apply elem_of_seq in H1, H2.
      apply list_elem_of_fmap in Hk1 as (j1 & -> & _).
      apply list_elem_of_fmap in Hk2 as (j2 & E & _).
      assert (Hm : ((j1 * r + i1) mod r = (j2 * r + i2) mod r)%nat)
        by now rewrite E.
      rewrite !(Nat.add_comm (_ * r)), !Nat.Div0.mod_add in Hm.
      rewrite !Nat.mod_small in Hm by lia. exact Hm.
    + intros i Hi. apply elem_of_seq in Hi.
      apply NoDup_fmap_2_strong; [|apply NoDup_seq].
      intros j1 j2 _ _ E. nia.
    + apply NoDup_seq.
  - apply NoDup_seq.
  - intros k. rewrite list_elem_of_filter, elem_of_seq.
    rewrite list_elem_of_bind. split.
    + intros [Hk _]. lia.
    + intros [_ Hk]. split; [exact Hk|].
      assert (Hr : (0 < r)%nat) by nia.
      exists (k mod r)%nat. split.
      * apply list_elem_of_fmap. exists (k / r)%nat. split.
        -- pose proof (Nat.div_mod_eq k r). lia.
        -- apply elem_of_seq. split; [lia|]. simpl.
           apply Nat.Div0.div_lt_upper_bound. lia.
      * apply elem_of_seq. pose proof (Nat.mod_upper_bound k r). lia.
Qed.

(** Printed row by row, the items of [ColumnsDown] are the items of the
    list, each one once. *)
Lemma down_items_perm (strs : list string) (r c : nat) :
  (length strs <= r * c)%nat ->
  concat (map (down_items strs r c) (seq 0 r)) ≡ₚ strs.
Proof.
  intros Hn.
  set (idx := concat (map (fun i => map (fun j => (j * r + i)%nat) (seq 0 c))
                          (seq 0 r))).
  assert (E : concat (map (down_items strs r c) (seq 0 r))
              = omap (fun k => strs !! k) idx).
  { unfold idx. rewrite <- omap_concat_map. f_equal.
    apply map_ext. intros i. unfold down_items. now rewrite omap_map. }
  rewrite E.
  rewrite <- (filter_app_complement (fun k => (k < length strs)%nat) idx).
  rewrite omap_app. unfold idx at 1. rewrite (down_indices_perm _ _ _ Hn).
  rewrite omap_lookup_seq, omap_none; [now rewrite app_nil_r|].
  apply Forall_forall. intros k Hk. apply list_elem_of_filter in Hk as [Hk _].
  apply lookup_ge_None. lia.
Qed.

Lemma num_rows (n ncols : Z) :
  0 <= n -> 2 <= ncols -> n + ncols < 2 ^ 31 ->
  let nrows := Z.quot (int_wrap (int_wrap (n + ncols) - 1)) ncols in
  0 <= nrows <= n /\ n <= nrows * ncols /\ nrows = (n + ncols - 1) / ncols.
Proof.
  intros Hn Hc Hb nrows. subst nrows.
  rewrite (int_wrap_small (n + ncols)) by lia.
  rewrite (int_wrap_small (n + ncols - 1)) by lia.
  rewrite Z.quot_div_nonneg by lia.
  pose proof (Z.div_mod (n + ncols - 1) ncols ltac:(lia)) as Hd.
  pose proof (Z.mod_pos_bound (n + ncols - 1) ncols ltac:(lia)) as Hm.
  assert (Hq : 0 <= (n + ncols - 1) / ncols) by (apply Z.div_pos; lia).
  repeat split; try lia; nia.
Qed.

Lemma List_columns_down_run (l : list Any) (strs : list string)
    (opt : Any) (wrap : Z) (w : World) :
  texts l = Some strs ->
  wrap_option opt = Some wrap ->
  let width := max_width strs in
  let ncols := num_cols wrap width in
  let nrows := (Z.of_nat (length strs) + ncols - 1) / ncols in
  2 <= ncols ->
  2 * Z.of_nat (length strs) + ncols < 2 ^ 31 ->
  List (SliceOf l) ColumnsDown opt w
  = (Done tt,
     printed w (map row_line
                    (map (down_items (map (Sprintf_pad width) strs)
                                     (Z.to_nat nrows) (Z.to_nat ncols))
                         (seq 0 (Z.to_nat nrows))))).
Proof.
  intros Hl Ho width ncols nrows0 Hc Hn.
  set (n := Z.of_nat (length strs)) in *.
  set (nrows := Z.quot (int_wrap (int_wrap (n + ncols) - 1)) ncols).
  destruct (num_rows n ncols ltac:(lia) Hc ltac:(lia)) as (Hr1 & Hr2 & Hr3).
  fold nrows in Hr1, Hr2, Hr3. fold nrows0 in Hr3. rewrite <- Hr3.
  set (padded := map (Sprintf_pad width) strs).
  set (r := Z.to_nat nrows). set (c := Z.to_nat ncols).
  assert (Hlen : length padded = length strs) by apply length_map.
  unfold List.
  rewrite (bind_Done _ _ _ _ _ (item_strings_texts _ _ w Hl)).
  unfold ColumnsDown, List_columns.
  assert (Hb : forall k0 : Z -> M unit,
             bind (match opt with
                   | ANil => ret 80
                   | AInt z => ret z
                   | _ => panic (PanicError
                            (os.NewError "List option of unacceptable type"))
                   end) k0 w = k0 wrap w).
  { intros k0. destruct opt; try discriminate; inversion Ho; reflexivity. }
  rewrite Hb. cbv zeta. fold width. fold ncols. fold n. fold nrows.
  replace (ncols <=? 1) with false by (symmetry; apply Z.leb_gt; lia).
  fold padded. fold r.
  pose proof (down_loop_rows padded r c) as Hloop.
  rewrite Hlen in Hloop. fold n in Hloop.
  replace (Z.of_nat r) with nrows in Hloop by lia.
  replace (Z.of_nat c) with ncols in Hloop by lia.
  specialize (Hloop ltac:(lia) ltac:(lia) r 0%nat w ltac:(lia)).
  rewrite Nat.sub_0_r in Hloop. exact Hloop.
Qed.

(** X13: with two or more columns, [ColumnsDown] writes
    [(n + ncols - 1) / ncols] rows; item [j] of row [i] is the padded item
    [j * nrows + i] of the list, no row has more than [ncols] items, and
    together the rows hold every item of the list once. *)
Theorem List_columns_down_rows (l : list Any) (strs : list string)
    (opt : Any) (wrap : Z) (w : World) :
  texts l = Some strs ->
  wrap_option opt = Some wrap ->
  let width := max_width strs in
  let ncols := num_cols wrap width in
  let padded := map (Sprintf_pad width) strs in
  2 <= ncols ->
  2 * Z.of_nat (length strs) + ncols < 2 ^ 31 ->
  exists rows,
    List (SliceOf l) ColumnsDown opt w
    = (Done tt, printed w (map row_line rows))
    /\ Z.of_nat (length rows) = (Z.of_nat (length strs) + ncols - 1) / ncols
    /\ (forall i j row, rows !! i = Some row ->
                        row !! j = padded !! (j * length rows + i)%nat)
    /\ Forall (fun row => Z.of_nat (length row) <= ncols) rows
    /\ Permutation (concat rows) padded.
Proof.
  intros Hl Ho width ncols padded Hc Hn.
  set (n := Z.of_nat (length strs)) in *.
  set (nrows := (n + ncols - 1) / ncols).
  destruct (num_rows n ncols ltac:(lia) Hc ltac:(lia)) as (Hr1 & Hr2 & Hr3).
  rewrite Hr3 in Hr1, Hr2. fold nrows in Hr1, Hr2. clear Hr3.
  set (r := Z.to_nat nrows). set (c := Z.to_nat ncols).
  assert (Hlen : length padded = length strs) by apply length_map.
  assert (Hcover : (length padded <= r * c)%nat) by (rewrite Hlen; nia).
  exists (map (down_items padded r c) (seq 0 r)).
  assert (Hrows : length (map (down_items padded r c) (seq 0 r)) = r)
    by now rewrite length_map, length_seq.
  split; [|split; [|split; [|split]]].
  - now apply List_columns_down_run.
  - rewrite Hrows. lia.
  - intros i j row Hrow. rewrite Hrows.
    rewrite list_lookup_fmap in Hrow.
    destruct (seq 0 r !! i) as [i'|] eqn:Hi; [|discriminate].
    apply lookup_seq in Hi as [-> Hi]. simpl in Hrow.
    inversion Hrow; subst row. now apply down_items_lookup.
  - apply Forall_forall. intros row Hrow.
    apply list_elem_of_fmap in Hrow as (i & -> & _).
    pose proof (down_items_length padded r c i). lia.
  - now apply down_items_perm.
Qed.

Lemma List_columns_down_rows_witness :
  exists rows,
    List (SliceOf [AString "ab"; AString "c"; AString "def"; AString "g";
                   AString "hi"])
         ColumnsDown (AInt 11) world0
    = (Done tt, printed world0 (map row_line rows))
    /\ Z.of_nat (length rows) = (5 + 3 - 1) / 3
    /\ (forall i j row, rows !! i = Some row ->
          row !! j = map (Sprintf_pad 3) ["ab"; "c"; "def"; "g"; "hi"]
                       !! (j * length rows + i)%nat)
    /\ Forall (fun row => Z.of_nat (length row) <= 3) rows
    /\ Permutation (concat rows) (map (Sprintf_pad 3) ["ab"; "c"; "def"; "g"; "hi"]).
Proof.
  refine (List_columns_down_rows
            [AString "ab"; AString "c"; AString "def"; AString "g";
             AString "hi"]
            ["ab"; "c"; "def"; "g"; "hi"] (AInt 11) 11 world0 _ _ _ _);
    [reflexivity | reflexivity | vm_compute; discriminate
     | vm_compute; reflexivity].
Defined.

(** ** Padding *)

Lemma slice_from_append (s t : string) (k : nat) :
  (k <= String.length s)%nat ->
  slice_from (s +:+ t) k = slice_from s k +:+ t.
Proof.
  revert k. induction s as [|c s IH]; intros k Hk.
  - simpl in Hk. replace k with 0%nat by lia. simpl String.append.
    now rewrite slice_from_zero.
  - destruct k as [|k]; [now rewrite !slice_from_zero|].
    simpl in Hk. specialize (IH k ltac:(lia)).
    unfold slice_from in *. simpl. exact IH.
Qed.

Lemma slice_from_one (c : ascii) (s : string) :
  slice_from (String c s) 1 = s.
Proof.
  pose proof (slice_from_zero s) as H. unfold slice_from in *. simpl.
  now rewrite Nat.sub_0_r in *.
Qed.

Lemma length_slice_from (s : string) (k : nat) :
  (k <= String.length s)%nat ->
  String.length (slice_from s k) = (String.length s - k)%nat.
Proof.
  revert k. induction s as [|c s IH]; intros k Hk.
  - now destruct k.
  - destruct k as [|k]; [now rewrite slice_from_zero|].
    simpl in Hk. specialize (IH k ltac:(lia)).
    unfold slice_from in *. simpl. exact IH.
Qed.

Lemma DecodeRuneInString_size_le (s : string) :
  (snd (utf8.DecodeRuneInString s) <= String.length s)%nat.
Proof.
  unfold utf8.DecodeRuneInString.
  destruct s as [|b0 [|b1 [|b2 [|b3 s]]]]; decode_cases; simpl; lia.
Qed.

(** A blank after the text does not change how its first rune decodes. *)
Lemma DecodeRuneInString_before_ascii (b : ascii) (s : string) (c : ascii)
    (t : string) :
  byte_val c < 128 ->
  snd (utf8.DecodeRuneInString (String b s +:+ String c t))
  = snd (utf8.DecodeRuneInString (String b s)).
Proof.
  intros Hc.
  assert (Hnc : utf8.not_cont (byte_val c) = true).
  { unfold utf8.not_cont. apply orb_true_iff. left. now apply Z.ltb_lt. }
  unfold utf8.DecodeRuneInString.
  destruct s as [|b1 [|b2 [|b3 s]]]; simpl String.append;
    try rewrite Hnc; decode_cases.
Qed.

Lemma length_spaces (k : nat) : String.length (spaces k) = k.
Proof. induction k as [|k IH]; simpl; [reflexivity | now rewrite IH]. Qed.

Lemma count_runes_spaces (k fuel : nat) :
  (k <= fuel)%nat -> utf8.count_runes fuel (spaces k) = k.
Proof.
  revert fuel. induction k as [|k IH]; intros fuel Hf.
  - destruct fuel; reflexivity.
  - destruct fuel as [|fuel]; [lia|].
    change (spaces (S k)) with (String " " (spaces k)).
    cbn [utf8.count_runes].
    rewrite DecodeRuneInString_ascii by (vm_compute; reflexivity).
    rewrite slice_from_one. now rewrite IH by lia.
Qed.

Lemma count_runes_pad (k : nat) :
  forall (fuel : nat) (s : string),
    (String.length s <= fuel)%nat ->
    utf8.count_runes (fuel + k) (s +:+ spaces k)
    = (utf8.count_runes fuel s + k)%nat.
Proof.
  induction fuel as [|fuel IH]; intros s Hs.
  - destruct s; [|simpl in Hs; lia]. simpl String.append.
    now rewrite count_runes_spaces.
  - destruct s as [|b s].
    + simpl String.append. now rewrite count_runes_spaces by lia.
    + cbn [utf8.count_runes Nat.add].
      change (String b s +:+ spaces k) with (String b (s +:+ spaces k)).
      cbv iota.
      change (String b (s +:+ spaces k)) with (String b s +:+ spaces k).
      pose proof (DecodeRuneInString_size_le (String b s)) as Hle.
      pose proof (DecodeRuneInString_size b s) as Hge.
      assert (Hsz : snd (utf8.DecodeRuneInString (String b s +:+ spaces k))
                    = snd (utf8.DecodeRuneInString (String b s))).
      { destruct k as [|k]; [now rewrite append_empty_r|].
        change (spaces (S k)) with (String " " (spaces k)).
        apply DecodeRuneInString_before_ascii. vm_compute. reflexivity. }
      destruct (utf8.DecodeRuneInString (String b s +:+ spaces k))
        as [r1 k1].
      destruct (utf8.DecodeRuneInString (String b s)) as [r2 k2].
      simpl in Hsz, Hle, Hge. subst k1.
      rewrite slice_from_append by exact Hle.
      rewrite IH; [reflexivity|].
      rewrite length_slice_from by exact Hle.
      cbn [String.length] in *. lia.
Qed.

Lemma count_runes_le (fuel : nat) (s : string) :
  (utf8.count_runes fuel s <= String.length s)%nat.
Proof.
  revert s. induction fuel as [|fuel IH]; intros s; [simpl; lia|].
  destruct s as [|b s]; [simpl; lia|].
  cbn [utf8.count_runes].
  pose proof (DecodeRuneInString_size_le (String b s)) as Hle.
  pose proof (DecodeRuneInString_size b s) as Hge.
  destruct (utf8.DecodeRuneInString (String b s)) as [r k].
  simpl in Hle, Hge. specialize (IH (slice_from (String b s) k)).
  rewrite length_slice_from in IH by exact Hle.
  cbn [String.length] in *. lia.
Qed.

Lemma RuneCountInString_pad (s : string) (k : nat) :
  utf8.RuneCountInString (s +:+ spaces k)
  = (utf8.RuneCountInString s + k)%nat.
Proof.
  unfold utf8.RuneCountInString.
  rewrite length_append, length_spaces. now apply count_runes_pad.
Qed.

Lemma max_width_from_elem (strs : list string) (s : string) (a : Z) :
  List.In s strs ->
  len s <= fold_left
             (fun width s => let n := len s in if n >? width then n else width)
             strs a.
Proof.
  revert a. induction strs as [|x strs IH]; intros a Hin; [destruct Hin|].
  simpl. destruct Hin as [-> | Hin].
  - etransitivity; [|apply max_width_from_ge]. cbv zeta.
    destruct (Z.gtb_spec (len s) a); lia.
  - now apply IH.
Qed.

Lemma max_width_elem (strs : list string) (s : string) :
  List.In s strs -> len s <= max_width strs.
Proof. apply max_width_from_elem. Qed.

(** X11: padded for the columns, every item of the list is as many runes
    long as the longest item has bytes. *)
Theorem Sprintf_pad_aligns (strs : list string) (s : string) :
  List.In s strs ->
  Z.of_nat (utf8.RuneCountInString (Sprintf_pad (max_width strs) s))
  = max_width strs.
Proof.
  intros Hin. unfold Sprintf_pad. rewrite RuneCountInString_pad.
  pose proof (max_width_elem strs s Hin) as Hw.
  pose proof (count_runes_le (String.length s) s) as Hc.
  fold (utf8.RuneCountInString s) in Hc. unfold len in Hw. lia.
Qed.

(** An item of three bytes and two runes beside one of four bytes. *)
Lemma Sprintf_pad_aligns_witness :
  Z.of_nat (utf8.RuneCountInString
              (Sprintf_pad (max_width [bytes [110; 195; 169]; "abcd"])
                           (bytes [110; 195; 169])))
  = max_width [bytes [110; 195; 169]; "abcd"].
Proof.
  apply (Sprintf_pad_aligns [bytes [110; 195; 169]; "abcd"]
                            (bytes [110; 195; 169])).
  simpl. left. reflexivity.
Defined.

(** ** Lines within the wrap width *)

Lemma count_runes_ascii (s : string) :
  ascii_text s ->
  forall fuel, (String.length s <= fuel)%nat ->
               utf8.count_runes fuel s = String.length s.
Proof.
  induction s as [|b s IH]; intros Hs fuel Hf.
  - destruct fuel; reflexivity.
  - destruct fuel as [|fuel]; [simpl in Hf; lia|].
    cbn [utf8.count_runes].
    assert (Hb : byte_val b < 128).
    { destruct (Hs 0%nat) as [H _]; [simpl; lia | exact H]. }
    rewrite DecodeRuneInString_ascii by exact Hb.
    rewrite slice_from_one. cbn [String.length]. f_equal. apply IH.
    + intros j Hj. apply (Hs (S j)). simpl. lia.
    + simpl in Hf. lia.
Qed.

Lemma length_Sprintf_pad (width : Z) (s : string) :
  ascii_text s -> len s <= width ->
  Z.of_nat (String.length (Sprintf_pad width s)) = width.
Proof.
  intros Hs Hw. unfold Sprintf_pad, utf8.RuneCountInString.
  rewrite (count_runes_ascii s Hs) by lia.
  rewrite length_append, length_spaces. unfold len in Hw. lia.
Qed.

Lemma length_Join (row : list string) (wd : nat) :
  Forall (fun s => String.length s = wd) row ->
  (String.length (strings.Join row " ") + 1 <= length row * (wd + 1) + 1)%nat
  /\ (row <> [] ->
      (String.length (strings.Join row " ") + 1 = length row * (wd + 1))%nat).
Proof.
  induction 1 as [|x row Hx Hrow IH]; [split; [simpl; lia | congruence]|].
  destruct row as [|y row].
  - simpl. split; intros; lia.
  - destruct IH as [_ IH]. specialize (IH ltac:(congruence)).
    change (strings.Join (x :: y :: row) " ")
      with (x +:+ " " +:+ strings.Join (y :: row) " ").
    rewrite !length_append. cbn [length String.length] in *.
    split; intros; lia.
Qed.

Lemma length_TrimRightFunc (s : string) :
  (String.length (strings.TrimRightFunc s unicode.IsSpace)
   <= String.length s)%nat.
Proof.
  destruct (TrimRightFunc_prefix s unicode.IsSpace) as (j & Hj & ->);
    [reflexivity|].
  now rewrite slice_prefix_length.
Qed.

Lemma rows_fit (padded : list string) (rows : list (list string))
    (wd c : nat) (wrap : Z) :
  Forall (fun s => String.length s = wd) padded ->
  Forall (fun row => (length row <= c)%nat
                     /\ forall s, s ∈ row -> s ∈ padded) rows ->
  (1 <= c)%nat ->
  Z.of_nat c * (Z.of_nat wd + 1) <= wrap + 1 ->
  Forall (fun line => exists text, line = text +:+ newline /\ len text <= wrap)
         (map row_line rows).
Proof.
  intros Hpad Hrows Hc Hw. apply Forall_forall. intros line Hline.
  apply list_elem_of_fmap in Hline as (row & -> & Hrow).
  rewrite Forall_forall in Hrows. destruct (Hrows row Hrow) as [Hlen Hsub].
  exists (strings.TrimRightFunc (strings.Join row " ") unicode.IsSpace).
  split; [reflexivity|].
  pose proof (length_TrimRightFunc (strings.Join row " ")) as Ht.
  assert (Hall : Forall (fun s => String.length s = wd) row).
  { apply Forall_forall. intros s Hs. rewrite Forall_forall in Hpad.
    apply Hpad, Hsub, Hs. }
  destruct (length_Join row wd Hall) as [_ Hj]. unfold len.
  destruct row as [|x row]; [simpl in *; nia|].
  specialize (Hj ltac:(congruence)). nia.
Qed.

Lemma chunks_elem {A} (k : nat) (l : list A) (row : list A) (x : A) :
  (0 < k)%nat -> row ∈ chunks (length l) k l -> x ∈ row -> x ∈ l.
Proof.
  intros Hk Hrow Hx.
  rewrite <- (chunks_concat k (length l) l Hk ltac:(lia)).
  apply list_elem_of_In, in_concat. exists row.
  split; now apply list_elem_of_In.
Qed.

Lemma num_cols_fill (wrap width : Z) :
  - 2 ^ 31 <= wrap < 2 ^ 31 - 1 -> 0 <= width < 2 ^ 31 - 1 ->
  1 <= num_cols wrap width ->
  num_cols wrap width * (width + 1) <= wrap + 1.
Proof.
  intros Hw Hd. rewrite num_cols_in_range by lia. intros Hc.
  destruct (Z.lt_ge_cases (wrap + 1) 0) as [Hn | Hp].
  - assert ((wrap + 1) ÷ (width + 1) <= 0); [|lia].
    apply Z.quot_le_upper_bound; lia.
  - rewrite Z.quot_div_nonneg in * by lia.
    rewrite Z.mul_comm. apply Z.mul_div_le. lia.
Qed.

(** X14: for ASCII items and two or more columns, no line that the column
    modes write is longer than the wrap width, the newline not counted. *)
Theorem List_columns_fit_wrap (l : list Any) (strs : list string)
    (mode : ListMode) (opt : Any) (wrap : Z) (w : World) :
  texts l = Some strs ->
  wrap_option opt = Some wrap ->
  Forall ascii_text strs ->
  mode = ColumnsAcross \/ mode = ColumnsDown ->
  - 2 ^ 31 <= wrap < 2 ^ 31 - 1 ->
  max_width strs < 2 ^ 31 - 1 ->
  2 <= num_cols wrap (max_width strs) ->
  2 * Z.of_nat (length strs) + num_cols wrap (max_width strs) < 2 ^ 31 ->
  exists lines,
    List (SliceOf l) mode opt w = (Done tt, printed w lines)
    /\ Forall (fun line => exists text,
                 line = text +:+ newline /\ len text <= wrap) lines.
Proof.
  intros Hl Ho Hascii Hmode Hwrap Hwidth Hc Hn.
  set (width := max_width strs) in *. set (ncols := num_cols wrap width) in *.
  set (padded := map (Sprintf_pad width) strs).
  pose proof (max_width_nonneg strs) as Hw0. fold width in Hw0.
  assert (Hpad : Forall (fun s => String.length s = Z.to_nat width) padded).
  { apply Forall_forall. intros s Hs.
    apply list_elem_of_fmap in Hs as (s0 & -> & Hs0).
    rewrite Forall_forall in Hascii.
    pose proof (length_Sprintf_pad width s0 (Hascii s0 Hs0)
                  (max_width_elem strs s0 (proj1 (list_elem_of_In _ _) Hs0))).
    lia. }
  pose proof (num_cols_fill wrap width Hwrap ltac:(lia) ltac:(fold ncols; lia))
    as Hfill.
  fold ncols in Hfill.
  assert (Hfit : Z.of_nat (Z.to_nat ncols) * (Z.of_nat (Z.to_nat width) + 1)
                 <= wrap + 1) by (rewrite !Z2Nat.id by lia; exact Hfill).
  destruct Hmode as [-> | ->].
  - eexists. split.
    + apply (List_columns_across_run l strs opt wrap w Hl Ho); fold width;
        fold ncols; lia.
    + fold width. fold ncols. fold padded.
      apply (rows_fit padded _ (Z.to_nat width) (Z.to_nat ncols) wrap Hpad);
        [| lia | exact Hfit].
      apply Forall_forall. intros row Hrow.
      assert (Hlen : length padded = length strs) by apply length_map.
      rewrite <- Hlen in Hrow. split.
      * destruct (chunks_lengths (Z.to_nat ncols) (length padded) padded
                    ltac:(lia)) as [Hall _].
        rewrite Forall_forall in Hall. specialize (Hall row Hrow).
        simpl in Hall. lia.
      * intros s Hs. apply (chunks_elem (Z.to_nat ncols) padded row s);
          [lia | exact Hrow | exact Hs].
  - eexists. split.
    + apply (List_columns_down_run l strs opt wrap w Hl Ho); fold width;
        fold ncols; lia.
    + cbv zeta. fold width. fold ncols. fold padded.
      apply (rows_fit padded _ (Z.to_nat width) (Z.to_nat ncols) wrap Hpad);
        [| lia | exact Hfit].
      apply Forall_forall. intros row Hrow.
      apply list_elem_of_fmap in Hrow as (i & -> & _). split.
      * apply down_items_length.
      * intros s Hs. unfold down_items in Hs.
        apply list_elem_of_omap in Hs as (j & _ & Hj).
        now apply list_elem_of_lookup_2 in Hj.
Qed.

Lemma List_columns_fit_wrap_witness :
  exists lines,
    List (SliceOf [AString "ab"; AString "c"; AString "def"; AString "g";
                   AString "hi"])
         ColumnsDown (AInt 11) world0
    = (Done tt, printed world0 lines)
    /\ Forall (fun line => exists text,
                 line = text +:+ newline /\ len text <= 11) lines.
Proof.
  refine (List_columns_fit_wrap
            [AString "ab"; AString "c"; AString "def"; AString "g";
             AString "hi"]
            ["ab"; "c"; "def"; "g"; "hi"] ColumnsDown (AInt 11) 11 world0
            _ _ _ _ _ _ _ _);
    [reflexivity | reflexivity | | right; reflexivity | lia
     | vm_compute; reflexivity | vm_compute; discriminate
     | vm_compute; reflexivity].
  repeat (apply Forall_cons_2;
          [intros j Hj; simpl in Hj;
           do 4 (destruct j as [|j]; [vm_compute; split; reflexivity|]); lia|]).
  apply Forall_nil_2.
Defined.

(** ** Runs of the suffix helper and of [List] *)

(** The two blanks that end a prompt. *)
Lemma stringSuffixIndexFunc_ascii_witness :
  stringSuffixIndexFunc "Name:  " unicode.IsSpace = 5
  /\ stringSuffixFunc "Name:  " unicode.IsSpace = slice_from "Name:  " 5.
Proof.
  refine (stringSuffixIndexFunc_ascii "Name:  " unicode.IsSpace 5 _ _ _).
  - simpl. lia.
  - intros j Hj. simpl in Hj.
    do 7 (destruct j as [|j]; [try lia; vm_compute; split; reflexivity|]).
    lia.
  - right. vm_compute. split; reflexivity.
Defined.

(** A list with an item that [List] refuses. *)
Lemma List_ends_witness :
  steady (List (SliceOf [AString "a"; AStringer "b"; AInt 3]) ColumnsDown
               (AInt 7)).
Proof.
  apply (List_ends [AString "a"; AStringer "b"; AInt 3] ColumnsDown (AInt 7)).
  simpl. lia.
Defined.

(** ** [SayTrimmed]: what is cut off *)

Lemma slice_from_slice_from (s : string) (a b : nat) :
  slice_from (slice_from s a) b = slice_from s (a + b).
Proof.
  revert s. induction a as [|a IH]; intros s.
  - now rewrite slice_from_zero.
  - destruct s as [|c s]; [now destruct b|].
    assert (H : forall k, slice_from (String c s) (S k) = slice_from s k)
      by (intros k; unfold slice_from; reflexivity).
    rewrite H. change (S a + b)%nat with (S (a + b)). rewrite H. apply IH.
Qed.

(** The fuel of [all_runes_from] does not matter once it covers the
    string. *)
Lemma all_runes_from_fuel (f : Z -> bool) (n : nat) :
  forall (fuel1 fuel2 : nat) (t : string),
    (String.length t <= n)%nat ->
    (String.length t <= fuel1)%nat -> (String.length t <= fuel2)%nat ->
    all_runes_from fuel1 f t = all_runes_from fuel2 f t.
Proof.
  induction n as [|n IH]; intros fuel1 fuel2 t Hn H1 H2.
  - destruct t; [|simpl in Hn; lia]. now destruct fuel1, fuel2.
  - destruct t as [|b t]; [now destruct fuel1, fuel2|].
    destruct fuel1 as [|fuel1]; [simpl in H1; lia|].
    destruct fuel2 as [|fuel2]; [simpl in H2; lia|].
    cbn [all_runes_from].
    pose proof (DecodeRuneInString_size_le (String b t)) as Hle.
    pose proof (DecodeRuneInString_size b t) as Hge.
    destruct (utf8.DecodeRuneInString (String b t)) as [r size].
    simpl in Hle, Hge. f_equal.
    pose proof (length_slice_from (String b t) size Hle) as Hlen.
    cbn [String.length] in *. apply IH; lia.
Qed.

Lemma all_runes_step (f : Z -> bool) (t : string) (r : Z) (size : nat) :
  t <> "" ->
  utf8.DecodeRuneInString t = (r, size) ->
  all_runes f t = f r && all_runes f (slice_from t size).
Proof.
  intros Ht Hd. unfold all_runes.
  destruct t as [|b t]; [contradiction|].
  cbn [String.length all_runes_from]. rewrite Hd. f_equal.
  pose proof (DecodeRuneInString_size_le (String b t)) as Hle.
  pose proof (DecodeRuneInString_size b t) as Hge.
  rewrite Hd in Hle, Hge. simpl in Hle, Hge.
  pose proof (length_slice_from (String b t) size Hle) as Hlen.
  cbn [String.length] in *.
  apply (all_runes_from_fuel f (String.length t)); lia.
Qed.

(** A rune other than [RuneError] that [DecodeLastRuneInString] finds at
    the end of [s[0:i]] is what [DecodeRuneInString] finds where it
    starts. *)
Lemma DecodeRuneInString_of_last (s : string) (i : nat) (r : Z) (size : nat) :
  (0 < i)%nat -> (i <= String.length s)%nat ->
  utf8.DecodeLastRuneInString (slice s 0 i) = (r, size) ->
  r <> utf8.RuneError ->
  (1 <= size <= i)%nat
  /\ utf8.DecodeRuneInString (slice_from s (i - size)) = (r, size).
Proof.
  intros H0 Hi Hd Hr.
  pose proof (slice_prefix_length s i Hi) as Hlen.
  apply DecodeLastRuneInString_cases in Hd; [|lia].
  rewrite Hlen in Hd. rewrite byte_at_slice_prefix in Hd by lia.
  destruct Hd as [(Hc & -> & ->) | [(Hc & start & Hs & Hsum & Hdec)
                                   | (_ & ? & _)]];
    [| |contradiction].
  - split; [lia|].
    destruct (slice_from_cons s (i - 1)) as (c & Hget & ->); [lia|].
    rewrite (byte_at_get _ _ _ Hget) in *.
    now apply DecodeRuneInString_ascii.
  - rewrite slice_slice_prefix in Hdec by lia.
    destruct (slice_cons s start i) as (c & Hget & Hcons); [lia | lia |].
    assert (Hsz : (1 <= size)%nat).
    { pose proof (DecodeRuneInString_size c (slice s (S start) i)) as Hp.
      rewrite <- Hcons, Hdec in Hp. exact Hp. }
    split; [lia|].
    replace (i - size)%nat with start by lia.
    destruct (Nat.eq_dec size 1%nat) as [-> | Hne].
    + exfalso. apply Hr.
      replace (S start) with i in Hcons by lia.
      rewrite slice_empty in Hcons. rewrite Hcons in Hdec.
      replace start with (i - 1)%nat in * by lia.
      rewrite (byte_at_get _ _ _ Hget) in Hc.
      unfold utf8.DecodeRuneInString in Hdec. cbv zeta in Hdec.
      replace (byte_val c <? 128) with false in Hdec
        by (symmetry; apply Z.ltb_ge; lia).
      destruct (byte_val c <? 192); now inversion Hdec.
    + rewrite (slice_from_split s start i) by lia.
      apply DecodeRuneInString_prefix; [exact Hdec | lia].
Qed.

Lemma trim_end_none (s : string) : trim_end s (-1) = 0.
Proof. reflexivity. Qed.

(** What the scan of [TrimRightFunc] passes over are runes that satisfy
    [f]. *)
Lemma lastIndexFunc_from_rest (f : Z -> bool) (s : string) :
  f utf8.RuneError = false ->
  forall (fuel i : nat),
    (i <= fuel)%nat -> (i <= String.length s)%nat -> boundary s i ->
    all_runes f (slice_from s i) = true ->
    let k := fst (strings.lastIndexFunc_from fuel s i (strings.pure_pred f)
                                             false tt) in
    (0 <= trim_end s k <= Z.of_nat (String.length s))
    /\ all_runes f (slice_from s (Z.to_nat (trim_end s k))) = true.
Proof.
  intros Hf. induction fuel as [|fuel IH]; intros i Hfuel Hi Hb Hall.
  - replace i with 0%nat in * by lia.
    cbv zeta. cbn [strings.lastIndexFunc_from fst]. rewrite trim_end_none.
    split; [lia | exact Hall].
  - cbn [strings.lastIndexFunc_from].
    destruct (i =? 0)%nat eqn:H0.
    + apply Nat.eqb_eq in H0. subst i.
      cbv zeta. cbn [fst]. rewrite trim_end_none.
      split; [lia | exact Hall].
    + apply Nat.eqb_neq in H0.
      destruct (utf8.DecodeLastRuneInString (slice s 0 i)) as [r size] eqn:Hd.
      change (strings.pure_pred f r tt) with (f r, tt).
      destruct (trim_end_found s i r size) as [Hsize Hend]; auto; [lia|].
      destruct (f r) eqn:Hfr; cbn [Bool.eqb]; cbv iota.
      * assert (Hr : r <> utf8.RuneError) by congruence.
        destruct (DecodeRuneInString_of_last s i r size) as [_ Hdec];
          auto; [lia|].
        apply IH; [lia | lia | |].
        -- apply (boundary_step s i r size); auto. lia.
        -- rewrite (all_runes_step f _ r size);
             [| apply slice_from_nonempty; lia | exact Hdec].
           rewrite Hfr, slice_from_slice_from.
           replace (i - size + size)%nat with i by lia. exact Hall.
      * cbn [fst]. rewrite Hend, Nat2Z.id. split; [lia | exact Hall].
Qed.

(** X5: [SayTrimmed] cuts off the trailing white space and nothing else:
    [msg] is a kept part, empty or ending in a rune that is no white space,
    followed by a rest of white space runes only, and what is written is
    the kept part and one newline. *)
Theorem SayTrimmed_trims_trailing_space (msg : string) (w : World) :
  exists kept rest,
    msg = kept +:+ rest
    /\ unicode.IsSpace (last_rune kept) = false
    /\ all_runes unicode.IsSpace rest = true
    /\ SayTrimmed msg w = (Done tt, printed w [kept +:+ newline]).
Proof.
  set (k := fst (strings.lastIndexFunc_from (String.length msg) msg
                   (String.length msg) (strings.pure_pred unicode.IsSpace)
                   false tt)).
  assert (Ht : strings.TrimRightFunc msg unicode.IsSpace
               = slice msg 0 (Z.to_nat (trim_end msg k))) by reflexivity.
  destruct (lastIndexFunc_from_rest unicode.IsSpace msg eq_refl
              (String.length msg) (String.length msg))
    as [Hrange Hrest]; [lia | lia | apply boundary_length | |].
  { now rewrite slice_from_length. }
  fold k in Hrange, Hrest.
  exists (strings.TrimRightFunc msg unicode.IsSpace),
         (slice_from msg (Z.to_nat (trim_end msg k))).
  split; [|split; [|split]].
  - rewrite Ht. rewrite <- (slice_from_zero msg) at 1.
    apply slice_from_split; lia.
  - apply (TrimRightFunc_last msg unicode.IsSpace eq_refl).
  - exact Hrest.
  - apply SayTrimmed_line.
Qed.
